(** * The covariance test of [selection/covtest.py]

    A shallow embedding of [covtest], [reduced_covtest] and [forward_step].

    Conventions of the embedding.
    - A float is a rational number ([Q]): every finite float is one, and the
      arithmetic of numpy is read as exact arithmetic.  Non-finite values
      (inf, nan) are not represented.
    - A 1-d array is a [list Q], a 2-d array the list of its rows.
    - A raised exception is the [Raise] case of [result].
    - The collaborators that live outside this module ([selection.affine],
      [selection.forward_step]) are the fields of the interfaces [AffineOps]
      and [StepwiseSelector]; they are functions of their arguments, so the
      ambient random state of the samplers is not modelled and they read
      their array arguments without writing to them.
    - p-values are real numbers ([R]), because the approximate path takes an
      exponential. *)

From Stdlib Require Import QArith Qabs Qreals Reals Lia Lra Lqa Sorted Permutation.
From stdpp Require Import base option list gmap.

(** ** Exceptions *)

Inductive exn : Type :=
  | IndexError
  | TypeError
  | AttributeError
  | ValueError          (* a value outside the domain of an operation *)
  | Collaborator (code : nat).  (* any other exception of a collaborator *)

Inductive result (A : Type) : Type :=
  | Ok (a : A)
  | Raise (e : exn).
Arguments Ok {A} a.
Arguments Raise {A} e.

#[global] Instance result_ret : MRet result := fun A a => Ok a.
#[global] Instance result_bind : MBind result := fun A B f m =>
  match m with
  | Ok a => f a
  | Raise e => Raise e
  end.

Definition is_Ok {A} (r : result A) : Prop := exists a, r = Ok a.

(** ** Arrays *)

Definition vector := list Q.
Definition matrix := list (list Q).

(** [l[-1]] *)
Definition py_last {A} (l : list A) : result A :=
  match last l with
  | Some x => Ok x
  | None => Raise IndexError
  end.

(** [l[i]] for [0 <= i] *)
Definition py_index {A} (l : list A) (i : nat) : result A :=
  match l !! i with
  | Some x => Ok x
  | None => Raise IndexError
  end.

(** [l[-2]] *)
Definition py_index_m2 {A} (l : list A) : result A :=
  if decide (2 <= length l)%nat then py_index l (length l - 2) else Raise IndexError.

(** [np.dot] of two 1-d arrays *)
Definition np_dot (u v : vector) : Q := foldr Qplus 0%Q (zip_with Qmult u v).

(** [s * v] *)
Definition vscale (s : Q) (v : vector) : vector := map (fun x => s * x)%Q v.
(** [v * s] *)
Definition vscale_r (v : vector) (s : Q) : vector := map (fun x => x * s)%Q v.
(** [-v] *)
Definition vneg (v : vector) : vector := map Qopp v.
(** [u - v] *)
Definition vsub (u v : vector) : vector := zip_with Qminus u v.

(** [X.shape] *)
Definition nrows (X : matrix) : nat := length X.
Definition ncols (X : matrix) : nat := length (hd [] X).
Definition shape (X : matrix) : nat * nat := (nrows X, ncols X).

(** [X[:,j]] *)
Definition col (X : matrix) (j : nat) : vector := map (fun r => nth j r 0%Q) X.
(** [X.T] *)
Definition transpose (X : matrix) : matrix := map (col X) (seq 0 (ncols X)).
(** [np.dot(M, v)] for a 2-d [M] and a 1-d [v] *)
Definition np_dot_mv (M : matrix) (v : vector) : vector := map (fun r => np_dot r v) M.
(** [np.dot(A, B)] for 2-d [A] and [B] *)
Definition np_dot_mm (A B : matrix) : matrix :=
  map (fun r => map (fun c => np_dot r c) (transpose B)) A.
(** [np.identity(n)] *)
Definition np_identity (n : nat) : matrix :=
  map (fun i => map (fun j => if decide (i = j) then 1%Q else 0%Q) (seq 0 n)) (seq 0 n).
(** [np.zeros(n)] *)
Definition np_zeros (n : nat) : vector := replicate n 0%Q.
(** [A - B], elementwise *)
Definition msub (A B : matrix) : matrix := zip_with vsub A B.
(** [M * s], elementwise *)
Definition mscale_r (M : matrix) (s : Q) : matrix := map (fun r => vscale_r r s) M.
(** [M - v[None,:]]: [v] subtracted from every row *)
Definition sub_row (M : matrix) (v : vector) : matrix := map (fun r => vsub r v) M.
(** [M / v[None,:]]: every row divided by [v], entry by entry *)
Definition div_row (M : matrix) (v : vector) : matrix := map (fun r => zip_with Qdiv r v) M.
(** [M[mask]] for a boolean mask over the rows *)
Fixpoint mask_rows {A} (M : list A) (mask : list bool) : list A :=
  match M, mask with
  | r :: M', b :: mask' => if b then r :: mask_rows M' mask' else mask_rows M' mask'
  | _, _ => []
  end.

(** [np.sign] *)
Definition np_sign (q : Q) : Q :=
  match Qnum q with
  | Z0 => 0
  | Zpos _ => 1
  | Zneg _ => -1
  end%Q.

(** [np.fabs] *)
Definition np_fabs (q : Q) : Q := Qabs q.

(** [np.exp], as the real exponential *)
Definition np_exp (q : Q) : R := exp (Q2R q).

(** [np.argsort]: the indices that sort the array.  Ties are left in index
    order, as numpy's default sort leaves them on a short array (it finishes
    by insertion); the theorems below that do not mention ties use only that
    the result is a sorted permutation of the indices. *)
Fixpoint insert_by (key : nat -> Q) (i : nat) (l : list nat) : list nat :=
  match l with
  | [] => [i]
  | j :: l' => if Qle_bool (key j) (key i) then j :: insert_by key i l' else i :: l
  end.

Definition argsort (a : vector) : list nat :=
  foldl (fun acc i => insert_by (fun k => nth k a 0%Q) i acc) [] (seq 0 (length a)).

(** ** The constraint object of [selection.affine] *)

Record constraints : Type := mk_constraints {
  linear_part : matrix;
  offset : vector;
  covariance : matrix
}.

(** Modelled from the spec: the constructor [constraints(A, b, covariance=None)]
    of [selection.affine], which is not among the sources.  The spec gives it
    as [construct(A, b, covariance?) -> handle], the region [{z : A z <= b}]
    with a covariance that defaults to the identity. *)
Definition new_constraints (A : matrix) (b : vector) (cov : option matrix) : constraints :=
  {| linear_part := A;
     offset := b;
     covariance := default (np_identity (ncols A)) cov |}.

(** [con.covariance *= s].  The constraint is a value here: that the array
    scaled in place is the caller's when one was passed is not modelled. *)
Definition scale_covariance (con : constraints) (s : Q) : constraints :=
  {| linear_part := linear_part con;
     offset := offset con;
     covariance := mscale_r (covariance con) s |}.

(** The region [{z : A z <= b}] that a constraint stands for. *)
Definition in_region (con : constraints) (z : vector) : Prop :=
  Forall2 (fun a b => np_dot a z <= b)%Q (linear_part con) (offset con).

Inductive alternative : Type := greater | less | twosided.

(** The operations of [selection.affine] that this module calls. *)
Class AffineOps : Type := {
  (** [con.pivot(direction, Y, alternative=...)] *)
  pivot : constraints -> vector -> vector -> alternative -> result R;
  (** [con.bounds(direction, Y)] *)
  bounds : constraints -> vector -> vector -> result (Q * Q * Q * Q);
  (** [gibbs_test(con, Y, direction, ndraw=, burnin=, sigma_known=)] *)
  gibbs_test : constraints -> vector -> vector -> Z -> Z -> bool -> result R;
  (** [con.conditional(U, Uy)] *)
  conditional : constraints -> matrix -> vector -> result constraints;
  (** [simulate_from_constraints(con, Y, ndraw=, burnin=)] *)
  simulate_from_constraints : constraints -> vector -> Z -> Z -> result matrix
}.

(** ** [covtest] *)

(** [sigma**2], where [sigma] may be [None] *)
Definition py_pow2 (sigma : option Q) : result Q :=
  match sigma with
  | Some s => Ok (s ^ 2)%Q
  | None => Raise TypeError
  end.

(** Lines 73-75: the correlations, the index of the largest one in absolute
    value and its sign. *)
Definition correlations (X : matrix) (Y : vector) : vector := np_dot_mv (transpose X) Y.

Definition covtest_select (X : matrix) (Y : vector) : result (nat * Q) :=
  let Z := correlations X Y in
  idx ← py_last (argsort (map np_fabs Z));
  let sign := np_sign (nth idx Z 0%Q) in
  Ok (idx, sign).

(** Lines 77-81: the rows of the constraint. *)
Definition covtest_selector (X : matrix) (idx : nat) (sign : Q) : matrix :=
  let p := ncols X in
  let subset := <[idx := false]> (replicate p true) in
  let selector :=
    mask_rows (transpose X) subset
    ++ map vneg (mask_rows (transpose X) subset)
    ++ [vscale (- sign) (col X idx)] in
  sub_row selector (vscale sign (col X idx)).

Section Covtest.
Context `{AffineOps}.

Definition covtest (X : matrix) (Y : vector) (sigma : option Q) (exact : bool)
    (covariance : option matrix) : result (constraints * R * nat * Q) :=
  '(idx, sign) ← covtest_select X Y;
  let selector := covtest_selector X idx sign in
  let con := new_constraints selector (np_zeros (length selector)) covariance in
  s2 ← py_pow2 sigma;
  let con := scale_covariance con s2 in
  if exact then
    pvalue ← pivot con (vscale_r (col X idx) sign) Y greater;
    Ok (con, pvalue, idx, sign)
  else
    '(L2, L1, _, S') ← bounds con (vscale_r (col X idx) sign) Y;
    let exp_pvalue := np_exp (- L1 * (L1 - L2) / S' ^ 2)%Q in
    Ok (con, exp_pvalue, idx, sign).

(** ** [reduced_covtest] *)

(** [sigma or d] on a float or [None]: [None] and [0.0] are false. *)
Definition py_or (sigma : option Q) (d : Q) : Q :=
  match sigma with
  | Some s => if Qeq_bool s 0 then d else s
  | None => d
  end.

Definition reduced_covtest (X : matrix) (Y : vector) (ndraw burnin : Z)
    (sigma : option Q) (covariance : option matrix)
    : result (constraints * R * nat * Q) :=
  '(cone, _, idx, sign) ← covtest X Y (Some (py_or sigma 1%Q)) true covariance;
  pvalue ← gibbs_test cone Y (vscale_r (col X idx) sign) ndraw burnin
             (bool_decide (sigma <> None));
  Ok (cone, pvalue, idx, sign).
End Covtest.

(** ** The caller's arrays

    [forward_step] writes to an array in place, so the arrays it is given
    live in a store and are passed by location. *)

Inductive ndarray : Type :=
  | Arr1 (v : vector)
  | Arr2 (m : matrix).

Abbreviation loc := nat (only parsing).
Abbreviation heap := (gmap nat ndarray) (only parsing).

Definition load1 (h : heap) (l : loc) : vector :=
  match h !! l with
  | Some (Arr1 v) => v
  | _ => []
  end.

Definition load2 (h : heap) (l : loc) : matrix :=
  match h !! l with
  | Some (Arr2 m) => m
  | _ => []
  end.

(** A new array, at a location not in use. *)
Definition alloc (h : heap) (a : ndarray) : heap * loc :=
  let l := fresh (dom h) in (<[l := a]> h, l).

(** ** The stepwise selector of [selection.forward_step] *)

(** A projection [P]: callable on a matrix or a vector ([P(X)], [P(Y)]), with
    an orthonormal basis [P.U]. *)
Record projection : Type := mk_projection {
  proj_apply_m : matrix -> matrix;
  proj_apply_v : vector -> vector;
  proj_U : matrix
}.

(** The selector object [FS].  It is built from [X] and [Y] and keeps them,
    so [FS.next()] is given what they hold when it is called. *)
Class StepwiseSelector (selector : Type) : Type := {
  (** [forward_stepwise(X, Y)] *)
  forward_stepwise : matrix -> vector -> result selector;
  (** [FS.next()] *)
  FS_next : selector -> matrix -> vector -> result selector;
  (** [FS.P] *)
  FS_P : selector -> list (option projection);
  (** [FS.A] *)
  FS_A : selector -> matrix
}.

(** [np.sqrt] is not a rational function; its value on a float is a float. *)
Class SqrtOp : Type := { np_sqrt : Q -> Q }.

(** ** [forward_step] *)

(** [v.sum()] *)
Definition np_sum (v : vector) : Q := foldr Qplus 0%Q v.
(** [v.mean()] *)
Definition np_mean (v : vector) : Q := (np_sum v / inject_Z (Z.of_nat (length v)))%Q.
(** [M.mean(0)]: the mean of every column *)
Definition np_mean0 (M : matrix) : vector := map np_mean (transpose M).
(** [u * v], elementwise *)
Definition vmul (u v : vector) : vector := zip_with Qmult u v.
(** [(a >= b).mean()] over the entries [a] of an array *)
Definition np_mean_ge (a : vector) (b : Q) : R :=
  Q2R (inject_Z (Z.of_nat (length (filter (fun x => Qle_bool b x = true) a)))
       / inject_Z (Z.of_nat (length a))).

Section ForwardStep.
Context `{AffineOps} `{SqrtOp} {selector : Type} `{StepwiseSelector selector}.

(** [v.std()] *)
Definition np_std (v : vector) : Q :=
  np_sqrt (np_mean (map (fun x => Qabs (x - np_mean v) ^ 2)%Q v)).
(** [M.std(0)] *)
Definition np_std0 (M : matrix) : vector := map np_std (transpose M).

(** The two in-place updates of lines 236-237, on the array at [l]. *)
Definition center_inplace (h : heap) (l : loc) : heap :=
  <[l := Arr2 (sub_row (load2 h l) (np_mean0 (load2 h l)))]> h.
Definition scale_inplace (h : heap) (l : loc) : heap :=
  <[l := Arr2 (div_row (load2 h l) (np_std0 (load2 h l)))]> h.

(** What both updates leave in an array that held [M]. *)
Definition standardized (M : matrix) : matrix :=
  let M1 := sub_row M (np_mean0 M) in div_row M1 (np_std0 M1).

(** Lines 228-235: the names [RX], [RY] and [covariance]. *)
Definition residualize (h : heap) (lX lY : loc) (n : nat) (Pi : option projection)
    : heap * loc * loc * option matrix :=
  match Pi with
  | Some P =>
      let '(h1, lRX) := alloc h (Arr2 (msub (load2 h lX) (proj_apply_m P (load2 h lX)))) in
      let '(h2, lRY) := alloc h1 (Arr1 (vsub (load1 h1 lY) (proj_apply_v P (load1 h1 lY)))) in
      (h2, lRX, lRY,
       Some (msub (np_identity n) (np_dot_mm (proj_U P) (transpose (proj_U P)))))
  | None => (h, lX, lY, None)
  end.

Record loop_state : Type := mk_loop_state {
  FS : selector;
  covtest_P : list R;
  reduced_P : list R
}.

(** Lines 239-262, once [RX] has been standardized in the store [h]. *)
Definition step_tests (h : heap) (lY lRX lRY : loc) (covariance : option matrix)
    (sigma : option Q) (exact : bool) (burnin ndraw : Z) (i : nat)
    (FS' : selector) (st : loop_state) : result loop_state :=
  let RX := load2 h lRX in
  let RY := load1 h lRY in
  let Y := load1 h lY in
  '(con, pval, idx, sign) ← covtest RX RY sigma exact covariance;
  let covtest_P' := covtest_P st ++ [pval] in
  let eta := vscale_r (col RX idx) sign in
  let Acon := new_constraints (FS_A FS') (np_zeros (nrows (FS_A FS'))) None in
  Acon ← (if decide (0 < i)%nat then
            Pm2 ← py_index_m2 (FS_P FS');
            match Pm2 with
            | Some P =>
                let U := transpose (proj_U P) in
                let Uy := np_dot_mv U Y in
                conditional Acon U Uy
            | None => Raise AttributeError
            end
          else Ok Acon);
  s2 ← py_pow2 sigma;
  let Acon := scale_covariance Acon s2 in
  Z ← simulate_from_constraints Acon Y ndraw burnin;
  let observed := np_sum (vmul eta Y) in
  let reduced_pval := np_mean_ge (np_dot_mv Z eta) observed in
  Ok {| FS := FS'; covtest_P := covtest_P'; reduced_P := reduced_P st ++ [reduced_pval] |}.

(** The body of the loop, for the index [i]. *)
Definition fs_step (lX lY : loc) (n : nat) (sigma : option Q) (exact : bool)
    (burnin ndraw : Z) (i : nat) (st : loop_state) (h : heap)
    : heap * result loop_state :=
  match FS_next (FS st) (load2 h lX) (load1 h lY) with
  | Raise e => (h, Raise e)
  | Ok FS' =>
      match py_index (FS_P FS') i with
      | Raise e => (h, Raise e)
      | Ok Pi =>
          let '(h1, lRX, lRY, covariance) := residualize h lX lY n Pi in
          let h2 := scale_inplace (center_inplace h1 lRX) lRX in
          (h2, step_tests h2 lY lRX lRY covariance sigma exact burnin ndraw i FS' st)
      end
  end.

(** [for i in range(nstep)]: the body for each index in turn; an exception
    is the only way out before the last one. *)
Fixpoint fs_loop (lX lY : loc) (n : nat) (sigma : option Q) (exact : bool)
    (burnin ndraw : Z) (indices : list nat) (st : loop_state) (h : heap)
    : heap * result loop_state :=
  match indices with
  | [] => (h, Ok st)
  | i :: rest =>
      match fs_step lX lY n sigma exact burnin ndraw i st h with
      | (h', Ok st') => fs_loop lX lY n sigma exact burnin ndraw rest st' h'
      | (h', Raise e) => (h', Raise e)
      end
  end.

(** [range(nstep)] *)
Definition py_range (nstep : Z) : list nat := seq 0 (Z.to_nat nstep).

(** [forward_step(X, Y, sigma, nstep, exact, burnin, ndraw)], with [X] and
    [Y] the arrays at [lX] and [lY] of the store [h]: the store it leaves
    and what it returns or raises. *)
Definition forward_step (lX lY : loc) (sigma : option Q) (nstep : Z) (exact : bool)
    (burnin ndraw : Z) (h : heap) : heap * result (list R * list R) :=
  let '(n, p) := shape (load2 h lX) in
  match forward_stepwise (load2 h lX) (load1 h lY) with
  | Raise e => (h, Raise e)
  | Ok FS0 =>
      let st0 := {| FS := FS0; covtest_P := []; reduced_P := [] |} in
      match fs_loop lX lY n sigma exact burnin ndraw (py_range nstep) st0 h with
      | (h', Ok st) => (h', Ok (covtest_P st, reduced_P st))
      | (h', Raise e) => (h', Raise e)
      end
  end.
End ForwardStep.

(** ** Vocabulary of the statements *)

(** The order of the indices by their keys, which [argsort] sorts by. *)
Definition key_le (key : nat -> Q) (i j : nat) : Prop := (key i <= key j)%Q.

(** [X] is an [n] by [p] array. *)
Definition has_shape (X : matrix) (n p : nat) : Prop :=
  length X = n /\ Forall (fun r => length r = p) X.

(** [X_j . z], the correlation of column [j] with [z]. *)
Definition corr (X : matrix) (z : vector) (j : nat) : Q := np_dot (col X j) z.




(** [sigma] as the data model of the spec has it: unknown, or a positive
    number. *)
Definition valid_sigma (sigma : option Q) : Prop :=
  match sigma with
  | Some s => (0 < s)%Q
  | None => True
  end.

(** What the spec says of [bounds(direction, observed)]: it returns
    [(L2, L1, upper, S)], truncation limits with [L2 <= observed <= L1], where
    observed is [direction . Y], and a scale [S], which is positive. *)
Definition bounds_contract `{AffineOps} : Prop :=
  forall con eta y L2 L1 U S',
    bounds con eta y = Ok (L2, L1, U, S') ->
    (L2 <= np_dot eta y /\ np_dot eta y <= L1 /\ 0 < S')%Q.

(** The operations of [selection.affine] return, whatever they are given. *)
Definition affine_returns `{AffineOps} : Prop :=
  (forall con eta y alt, is_Ok (pivot con eta y alt))
  /\ (forall con eta y, is_Ok (bounds con eta y))
  /\ (forall con U Uy, is_Ok (conditional con U Uy))
  /\ (forall con y ndraw burnin, is_Ok (simulate_from_constraints con y ndraw burnin)).

Section SelectorVocabulary.
Context `{AffineOps} `{SqrtOp} {selector : Type} `{StepwiseSelector selector}.

(** What the spec says of the projections of the selector after [k]
    advances: [P[0]] is absent (no projection yet) and [P[1]], ..., [P[k]] are
    projections, which map a matrix to one of the same shape. *)
Definition selector_state (k : nat) (fs : selector) : Prop :=
  length (FS_P fs) = S k
  /\ FS_P fs !! 0%nat = Some None
  /\ forall j, (1 <= j <= k)%nat ->
       exists P, FS_P fs !! j = Some (Some P)
                 /\ forall M, shape (proj_apply_m P M) = shape M.

(** The selector can be built and advanced, and keeps to [selector_state]. *)
Definition selector_returns : Prop :=
  (forall X Y, exists fs, forward_stepwise X Y = Ok fs /\ selector_state 0 fs)
  /\ (forall k fs X Y, selector_state k fs ->
        exists fs', FS_next fs X Y = Ok fs' /\ selector_state (S k) fs').

(** [iterations i k st h st' h']: from the state [st] and the store [h], the
    body of the loop ran to its end [k] times in a row, for the indices [i],
    [i + 1], ..., [i + k - 1], and left [st'] and [h']. *)
Inductive iterations (lX lY : loc) (n : nat) (sigma : option Q) (exact : bool)
    (burnin ndraw : Z)
    : nat -> nat -> loop_state -> heap -> loop_state -> heap -> Prop :=
  | iterations_done i st h :
      iterations lX lY n sigma exact burnin ndraw i 0 st h st h
  | iterations_step i k st h st1 h1 st' h' :
      fs_step lX lY n sigma exact burnin ndraw i st h = (h1, Ok st1) ->
      iterations lX lY n sigma exact burnin ndraw (S i) k st1 h1 st' h' ->
      iterations lX lY n sigma exact burnin ndraw i (S k) st h st' h'.
End SelectorVocabulary.

(** ** Collaborators to run the model with

    The operations of [selection.affine] and the selector of
    [selection.forward_step] are not among the sources.  The definitions of
    this part are the simplest ones that fit what the spec says of them; the
    theorems hold for every collaborator, and these serve to evaluate the
    model on concrete inputs. *)

(** Modelled from the spec: the operations of [selection.affine], which the
    sources import and do not define.  The spec gives [pivot] and the
    Monte-Carlo p-value ([sample_pvalue]) as floats in [[0,1]], says of neither
    that it raises, and gives [bounds] as limits around the observed value
    with a scale; here the p-values are 1, the limits lie one unit off the
    observed value on both sides, with the observed value itself in the
    second place, and the scale is 1. *)
Definition spec_affine : AffineOps := {|
  pivot := fun _ _ _ _ => Ok 1%R;
  bounds := fun _ eta y => Ok (np_dot eta y - 1, np_dot eta y, np_dot eta y + 1, 1)%Q;
  gibbs_test := fun _ _ _ _ _ _ => Ok 1%R;
  conditional := fun con _ _ => Ok con;
  simulate_from_constraints := fun _ y _ _ => Ok [y]
|}.

(** Modelled from the spec: the selector of [selection.forward_step], which
    the sources import and do not define.  The spec gives it a per-step
    projection [P[i]], absent before any selection, and an accumulated
    constraint matrix [A]; here [P] starts as [[None]], every advance appends
    the projection onto the zero subspace (it maps every array to zeros of the
    same shape, with the zero vector as its basis) and a zero row to [A]. *)
Record list_selector : Type := mk_list_selector {
  ls_P : list (option projection);
  ls_A : matrix
}.

Definition zero_projection (n : nat) : projection :=
  {| proj_apply_m := map (map (fun _ => 0%Q));
     proj_apply_v := map (fun _ => 0%Q);
     proj_U := replicate n [0%Q] |}.

Definition spec_selector : StepwiseSelector list_selector := {|
  forward_stepwise := fun _ _ => Ok {| ls_P := [None]; ls_A := [] |};
  FS_next := fun fs X _ =>
    Ok {| ls_P := ls_P fs ++ [Some (zero_projection (length X))];
          ls_A := ls_A fs ++ [np_zeros (length X)] |};
  FS_P := ls_P;
  FS_A := ls_A
|}.

(** A square root that is exact on the squares of rationals. *)
Definition sqrt_of_squares : SqrtOp :=
  {| np_sqrt := fun q => (Z.sqrt (Qnum (Qred q)) # Pos.sqrt (Qden (Qred q)))%Q |}.

(** ** Concrete inputs *)

(** A 2 by 2 design whose second column is the more correlated with [Y_ex]
    ([X_0 . Y = 3], [X_1 . Y = 4]). *)
Definition X_ex : matrix := [[2; 1]; [1; 3]]%Q.
Definition Y_ex : vector := [1; 1]%Q.



(** A store with a 2 by 2 design at location 0 (column means 2, standard
    deviations 1) and a response at location 1. *)
Definition X_fs : matrix := [[3; 1]; [1; 3]]%Q.
Definition Y_fs : vector := [1; 0]%Q.
Definition h_fs : heap := <[1%nat := Arr1 Y_fs]> (<[0%nat := Arr2 X_fs]> ∅).

(** ** Further vocabulary *)

(** [u + v], elementwise *)
Definition vadd (u v : vector) : vector := zip_with Qplus u v.


(** Collaborators as [spec_affine], except that [pivot] raises: the spec lets
    the failures of a primitive (a singular covariance, a degenerate scale)
    come out unchanged. *)
Definition raising_pivot : AffineOps := {|
  pivot := fun _ _ _ _ => Raise (Collaborator 1);
  bounds := bounds (AffineOps := spec_affine);
  gibbs_test := gibbs_test (AffineOps := spec_affine);
  conditional := conditional (AffineOps := spec_affine);
  simulate_from_constraints := simulate_from_constraints (AffineOps := spec_affine)
|}.

(** A selector that cannot be built, and one that is built and cannot be
    advanced. *)
Definition unbuilt_selector : StepwiseSelector list_selector := {|
  forward_stepwise := fun _ _ => Raise (Collaborator 2);
  FS_next := FS_next (StepwiseSelector := spec_selector);
  FS_P := ls_P;
  FS_A := ls_A
|}.

Definition stuck_selector : StepwiseSelector list_selector := {|
  forward_stepwise := forward_stepwise (StepwiseSelector := spec_selector);
  FS_next := fun _ _ _ => Raise (Collaborator 3);
  FS_P := ls_P;
  FS_A := ls_A
|}.

(** ** [selection/tests/decorators.py] *)

From stdpp Require Import strings.

Section Decorators.
Context {V T : Type}.

(** A Python function as the decorator sees it: called with positional
    arguments and keyword arguments. *)
Definition py_function : Type := list V -> gmap string V -> T.

(** [set_sampling_params_iftrue(test_params, nsim, burnin, ndraw)(func)].
    The three parameters default to 10 in the source. *)
Definition set_sampling_params_iftrue (test_params : bool) (nsim burnin ndraw : V)
    (func : py_function) : py_function :=
  if test_params then
    fun args kwargs =>
      let kwargs := <["nsim" := nsim]> kwargs in
      let kwargs := <["burnin" := burnin]> kwargs in
      let kwargs := <["ndraw" := ndraw]> kwargs in
      func args kwargs
  else func.
End Decorators.

(** * Properties *)

(** ** The error monad *)

Lemma bind_Ok {A B} (m : result A) (f : A -> result B) (b : B) :
  m ≫= f = Ok b -> exists a, m = Ok a /\ f a = Ok b.
Proof. destruct m as [a|e]; [eauto | discriminate]. Qed.


(** ** Arithmetic of arrays *)

Lemma np_dot_cons (x y : Q) (u v : vector) :
  np_dot (x :: u) (y :: v) = (x * y + np_dot u v)%Q.
Proof. reflexivity. Qed.



Lemma np_dot_vscale_r (s : Q) (a z : vector) :
  (np_dot (vscale_r a s) z == np_dot a z * s)%Q.
Proof.
  revert z. induction a as [|x a IH]; intros [|w z]; try (cbn; ring).
  cbn [vscale_r map]. rewrite !np_dot_cons. fold (vscale_r a s). rewrite IH. ring.
Qed.





(** [np.sign] is the sign. *)
Lemma np_sign_cases (q : Q) :
  (0 < q /\ np_sign q = 1)%Q \/ (q == 0 /\ np_sign q = 0)%Q \/ (q < 0 /\ np_sign q = - (1))%Q.
Proof.
  destruct q as [[|n|n] d]; unfold np_sign; cbn [Qnum].
  - right; left. split; reflexivity.
  - left. split; reflexivity.
  - right; right. split; reflexivity.
Qed.

Lemma np_sign_mult_abs (q : Q) : (np_sign q * q == Qabs q)%Q.
Proof.
  destruct (np_sign_cases q) as [[Hq ->]|[[Hq ->]|[Hq ->]]].
  - rewrite Qabs_pos by lra. ring.
  - rewrite Hq. reflexivity.
  - rewrite Qabs_neg by lra. ring.
Qed.

(** ** [argsort] returns a sorted permutation of the indices *)

Section Argsort.
Variable key : nat -> Q.

Lemma insert_by_perm (i : nat) (l : list nat) :
  Permutation (insert_by key i l) (i :: l).
Proof.
  induction l as [|j l IH]; cbn [insert_by]; [reflexivity|].
  destruct (Qle_bool (key j) (key i)); [|reflexivity].
  rewrite IH. apply perm_swap.
Qed.

Lemma insert_by_sorted (i : nat) (l : list nat) :
  StronglySorted (key_le key) l -> StronglySorted (key_le key) (insert_by key i l).
Proof.
  induction 1 as [|j l Hs IH Hj]; cbn [insert_by].
  - repeat constructor.
  - destruct (Qle_bool (key j) (key i)) eqn:Hle.
    + constructor; [exact IH|].
      apply Qle_bool_iff in Hle.
      rewrite (List.Forall_forall (key_le key j)). intros x Hx.
      apply (Permutation_in _ (insert_by_perm i l)) in Hx.
      destruct Hx as [<-|Hx]; [exact Hle|].
      rewrite List.Forall_forall in Hj. exact (Hj x Hx).
    + assert (Hlt : (key i < key j)%Q).
      { apply Qnot_le_lt. intros Hc. apply Qle_bool_iff in Hc. congruence. }
      constructor; [constructor; assumption|].
      constructor; [unfold key_le; lra|].
      rewrite List.Forall_forall in Hj. rewrite (List.Forall_forall (key_le key i)).
      intros x Hx. specialize (Hj x Hx). unfold key_le in *. lra.
Qed.

Lemma foldl_insert_by_perm (l acc : list nat) :
  Permutation (foldl (fun acc i => insert_by key i acc) acc l) (acc ++ l).
Proof.
  revert acc. induction l as [|i l IH]; intros acc; cbn [foldl].
  - rewrite app_nil_r. reflexivity.
  - rewrite IH, insert_by_perm. apply Permutation_middle.
Qed.

Lemma foldl_insert_by_sorted (l acc : list nat) :
  StronglySorted (key_le key) acc ->
  StronglySorted (key_le key) (foldl (fun acc i => insert_by key i acc) acc l).
Proof.
  revert acc. induction l as [|i l IH]; intros acc Hacc; cbn [foldl]; [exact Hacc|].
  apply IH, insert_by_sorted, Hacc.
Qed.

(** The last element of a sorted list is a largest one. *)
Lemma sorted_last_max (l : list nat) (m : nat) :
  StronglySorted (key_le key) l -> last l = Some m -> forall x, In x l -> key_le key x m.
Proof.
  induction 1 as [|j l Hs IH Hj]; [discriminate|].
  intros Hlast x Hx. destruct l as [|k l].
  - injection Hlast as <-. destruct Hx as [<-|[]]. unfold key_le. lra.
  - change (last (j :: k :: l)) with (last (k :: l)) in Hlast.
    destruct Hx as [<-|Hx]; [|exact (IH Hlast x Hx)].
    rewrite List.Forall_forall in Hj. apply Hj.
    apply list_elem_of_In, last_Some_elem_of, Hlast.
Qed.
End Argsort.

Lemma argsort_perm (a : vector) : Permutation (argsort a) (seq 0 (length a)).
Proof. unfold argsort. apply (foldl_insert_by_perm _ _ []). Qed.

Lemma argsort_last (a : vector) (i : nat) :
  py_last (argsort a) = Ok i ->
  (i < length a)%nat /\ forall j, (j < length a)%nat -> (nth j a 0 <= nth i a 0)%Q.
Proof.
  unfold py_last. destruct (last (argsort a)) as [m|] eqn:Hlast; [|discriminate].
  intros [= ->].
  assert (Hin : forall j, In j (argsort a) <-> (j < length a)%nat).
  { intros j. split; intros Hj.
    - apply (Permutation_in _ (argsort_perm a)), in_seq in Hj. lia.
    - apply (Permutation_in _ (Permutation_sym (argsort_perm a))), in_seq. lia. }
  split.
  - apply Hin, list_elem_of_In, last_Some_elem_of, Hlast.
  - intros j Hj.
    apply (sorted_last_max (fun k => nth k a 0%Q) (argsort a) i); [|exact Hlast|apply Hin, Hj].
    unfold argsort. apply foldl_insert_by_sorted. constructor.
Qed.

Lemma argsort_last_Ok (a : vector) :
  (0 < length a)%nat -> exists i, py_last (argsort a) = Ok i.
Proof.
  intros Hlen. unfold py_last. destruct (last (argsort a)) as [m|] eqn:Hlast; [eauto|].
  apply last_None in Hlast.
  pose proof (Permutation_length (argsort_perm a)) as Hl.
  rewrite Hlast, length_seq in Hl. cbn in Hl. lia.
Qed.

(** ** The selection rule *)

Lemma ncols_has_shape (X : matrix) (n p : nat) :
  has_shape X n p -> (1 <= n)%nat -> ncols X = p.
Proof.
  intros [Hn Hrows] Hpos. unfold ncols. destruct X as [|r X]; [cbn in Hn; lia|].
  cbn. exact (Forall_inv Hrows).
Qed.

Lemma length_correlations (X : matrix) (Y : vector) :
  length (correlations X Y) = ncols X.
Proof. unfold correlations, np_dot_mv, transpose. rewrite !length_map. apply length_seq. Qed.

Lemma nth_correlations (X : matrix) (Y : vector) (j : nat) :
  (j < ncols X)%nat -> nth j (correlations X Y) 0%Q = corr X Y j.
Proof.
  intros Hj. unfold correlations, np_dot_mv, transpose, corr.
  rewrite map_map.
  rewrite (nth_indep _ 0%Q (np_dot (col X 0) Y)) by (rewrite length_map, length_seq; exact Hj).
  rewrite (map_nth (fun j => np_dot (col X j) Y) (seq 0 (ncols X)) 0%nat j).
  rewrite seq_nth by exact Hj. reflexivity.
Qed.

Lemma nth_fabs (Z : vector) (j : nat) :
  nth j (map np_fabs Z) 0%Q = np_fabs (nth j Z 0%Q).
Proof. exact (map_nth np_fabs Z 0%Q j). Qed.

(** Whatever [covtest_select] returns is a column whose correlation is
    largest in absolute value, with the sign of that correlation. *)
Lemma covtest_select_spec (X : matrix) (Y : vector) (idx : nat) (sign : Q) :
  covtest_select X Y = Ok (idx, sign) ->
  (idx < ncols X)%nat
  /\ (forall j, (j < ncols X)%nat -> (Qabs (corr X Y j) <= Qabs (corr X Y idx))%Q)
  /\ sign = np_sign (corr X Y idx).
Proof.
  unfold covtest_select. intros Hsel.
  apply bind_Ok in Hsel as (i & Hlast & Hret). injection Hret as <- <-.
  apply argsort_last in Hlast as [Hi Hmax].
  rewrite length_map, length_correlations in Hi, Hmax.
  split; [exact Hi|]. split.
  - intros j Hj. specialize (Hmax j Hj).
    rewrite !nth_fabs, !nth_correlations in Hmax by assumption. exact Hmax.
  - rewrite nth_correlations by exact Hi. reflexivity.
Qed.

(** With at least one column the selection does not raise. *)
Lemma covtest_select_Ok (X : matrix) (Y : vector) :
  (1 <= ncols X)%nat -> exists idx sign, covtest_select X Y = Ok (idx, sign).
Proof.
  intros Hp. unfold covtest_select.
  destruct (argsort_last_Ok (map np_fabs (correlations X Y))) as [i Hi].
  { rewrite length_map, length_correlations. lia. }
  rewrite Hi. cbn. eauto.
Qed.


(** The selection of [covtest] is that of [covtest_select]. *)
Lemma covtest_Ok_select `{AffineOps} (X : matrix) (Y : vector) (sigma : option Q)
    (exact : bool) (covariance : option matrix) con pvalue idx sign :
  covtest X Y sigma exact covariance = Ok (con, pvalue, idx, sign) ->
  covtest_select X Y = Ok (idx, sign)
  /\ exists s2, py_pow2 sigma = Ok s2
     /\ con = scale_covariance
                (new_constraints (covtest_selector X idx sign)
                   (np_zeros (length (covtest_selector X idx sign))) covariance) s2.
Proof.
  unfold covtest. intros Hc.
  apply bind_Ok in Hc as ([i s] & Hsel & Hc).
  apply bind_Ok in Hc as (s2 & Hs2 & Hc).
  destruct exact.
  - apply bind_Ok in Hc as (pv & _ & Hc). injection Hc as <- <- <- <-. eauto.
  - apply bind_Ok in Hc as ([[[L2 L1] U] S'] & _ & Hc). injection Hc as <- <- <- <-. eauto.
Qed.

(** ** The rows of the constraint *)



Lemma in_region_zeros (A : matrix) (cov : matrix) (z : vector) :
  in_region {| linear_part := A; offset := np_zeros (length A); covariance := cov |} z
  <-> Forall (fun a => (np_dot a z <= 0)%Q) A.
Proof.
  unfold in_region. cbn [linear_part offset]. induction A as [|a A IH]; cbn.
  - split; constructor.
  - split.
    + intros HA. inversion HA as [|? ? ? ? Ha HA']; subst.
      constructor; [exact Ha|]. apply IH, HA'.
    + intros HA. apply List.Forall_cons_iff in HA as [Ha HA].
      constructor; [exact Ha|]. apply IH, HA.
Qed.





(** ** [covtest]: what it returns *)

(** [covtest] returns as soon as there is a column, [sigma] is a number and
    the p-value primitive of its path returns. *)
Lemma covtest_returns `{AffineOps} (X : matrix) (Y : vector) (s : Q) (exact : bool)
    (cov : option matrix) :
  (1 <= ncols X)%nat ->
  (forall con eta y alt, is_Ok (pivot con eta y alt)) ->
  (forall con eta y, is_Ok (bounds con eta y)) ->
  is_Ok (covtest X Y (Some s) exact cov).
Proof.
  intros Hp Hpivot Hbounds. unfold covtest.
  destruct (covtest_select_Ok X Y Hp) as (idx & sign & ->). cbn.
  destruct exact.
  - match goal with |- context [pivot ?c ?e ?y ?a] => destruct (Hpivot c e y a) as [pv ->] end.
    cbn. eexists. reflexivity.
  - match goal with |- context [bounds ?c ?e ?y] =>
      destruct (Hbounds c e y) as [[[[L2 L1] U] S'] ->] end.
    cbn. eexists. reflexivity.
Qed.








(** ** Reordering the columns *)







(** ** [reduced_covtest] *)

Lemma reduced_covtest_Ok `{AffineOps} (X : matrix) (Y : vector) (ndraw burnin : Z)
    (sigma : option Q) (cov : option matrix) cone pvalue idx sign :
  reduced_covtest X Y ndraw burnin sigma cov = Ok (cone, pvalue, idx, sign)
  <-> exists pvalue0,
        covtest X Y (Some (py_or sigma 1%Q)) true cov = Ok (cone, pvalue0, idx, sign)
        /\ gibbs_test cone Y (vscale_r (col X idx) sign) ndraw burnin
             (bool_decide (sigma <> None)) = Ok pvalue.
Proof.
  unfold reduced_covtest. split.
  - intros Hr. apply bind_Ok in Hr as ([[[c pv0] i] s] & Hc & Hr).
    apply bind_Ok in Hr as (pv & Hg & Hr). injection Hr as <- <- <- <-. eauto.
  - intros (pv0 & -> & Hg). cbn. rewrite Hg. reflexivity.
Qed.


Lemma py_or_valid (sigma : option Q) : valid_sigma sigma -> py_or sigma 1%Q = default 1%Q sigma.
Proof.
  destruct sigma as [s|]; cbn; [|reflexivity]. intros Hs.
  destruct (Qeq_bool s 0) eqn:Hz; [|reflexivity].
  apply Qeq_bool_iff in Hz. lra.
Qed.

(** C4. With [sigma] unknown or a positive number, [reduced_covtest] returns
    [(cone, pvalue, idx, sign)] exactly when [covtest], on the same [X], [Y]
    and [covariance], on its exact path and with [sigma] replaced by 1 when
    unknown, returns that [cone], [idx] and [sign] with some p-value, which
    is dropped, and the sampler [gibbs_test] on that [cone], with direction
    [X_idx * sign] and the sigma-known flag set iff [sigma] was given, returns
    [pvalue]. *)
Theorem reduced_covtest_reuses_covtest `{AffineOps} (X : matrix) (Y : vector)
    (ndraw burnin : Z) (sigma : option Q) (cov : option matrix)
    (cone : constraints) (pvalue : R) (idx : nat) (sign : Q) :
  valid_sigma sigma ->
  reduced_covtest X Y ndraw burnin sigma cov = Ok (cone, pvalue, idx, sign)
  <-> exists pvalue0,
        covtest X Y (Some (default 1%Q sigma)) true cov = Ok (cone, pvalue0, idx, sign)
        /\ gibbs_test cone Y (vscale_r (col X idx) sign) ndraw burnin
             (bool_decide (is_Some sigma)) = Ok pvalue.
Proof.
  intros Hsigma. rewrite reduced_covtest_Ok, (py_or_valid sigma Hsigma).
  replace (bool_decide (sigma <> None)) with (bool_decide (is_Some sigma));
    [reflexivity|].
  destruct sigma; reflexivity.
Qed.

Lemma reduced_covtest_reuses_covtest_witness :
  exists cone,
    reduced_covtest (H := spec_affine) X_ex Y_ex 5000 2000 (Some 2%Q) None
    = Ok (cone, 1%R, 1%nat, 1%Q)
    /\ exists pvalue0,
         covtest (H := spec_affine) X_ex Y_ex (Some 2%Q) true None
         = Ok (cone, pvalue0, 1%nat, 1%Q)
         /\ gibbs_test (AffineOps := spec_affine) cone Y_ex (vscale_r (col X_ex 1) 1) 5000 2000
              true = Ok 1%R.
Proof.
  eexists. split; [reflexivity|].
  apply (proj1 (reduced_covtest_reuses_covtest (H := spec_affine) X_ex Y_ex 5000 2000
                  (Some 2%Q) None _ 1%R 1%nat 1%Q ltac:(reflexivity))).
  reflexivity.
Defined.

(** [sigma = 0.0] is outside the data model: there [sigma or 1] is 1 while
    [sigma is not None] holds. *)
Lemma py_or_zero : py_or (Some 0%Q) 1%Q = 1%Q /\ bool_decide (Some 0%Q <> None) = true.
Proof. split; reflexivity. Qed.




(** ** The approximate p-value *)

Lemma exp_nonpos_range (x : R) : (x <= 0)%R -> (0 <= exp x <= 1)%R.
Proof.
  intros Hx. split; [left; apply exp_pos|].
  destruct Hx as [Hlt| ->].
  - left. rewrite <- exp_0. apply exp_increasing, Hlt.
  - right. apply exp_0.
Qed.

Lemma np_exp_range (q : Q) : (q <= 0)%Q -> (0 <= np_exp q <= 1)%R.
Proof.
  intros Hq. apply exp_nonpos_range. apply Qle_Rle in Hq.
  rewrite RMicromega.Q2R_0 in Hq. exact Hq.
Qed.

Lemma exponent_nonpos (L1 L2 S' : Q) :
  (0 <= L1)%Q -> (L2 <= L1)%Q -> (- L1 * (L1 - L2) / S' ^ 2 <= 0)%Q.
Proof.
  intros H1 H2. unfold Qdiv.
  assert (Hinv : (0 <= / (S' ^ 2))%Q).
  { apply Qinv_le_0_compat. cbn. nra. }
  assert (Hprod : (0 <= L1 * (L1 - L2))%Q) by (apply Qmult_le_0_compat; lra).
  assert (Hall : (0 <= (L1 * (L1 - L2)) * / (S' ^ 2))%Q)
    by (apply Qmult_le_0_compat; assumption).
  lra.
Qed.

(** The direction of the test is [sign * X_idx], and the observed value
    along it is the largest correlation in absolute value. *)
Lemma observed_nonneg (X : matrix) (Y : vector) (idx : nat) (sign : Q) :
  covtest_select X Y = Ok (idx, sign) ->
  (np_dot (vscale_r (col X idx) sign) Y == Qabs (corr X Y idx))%Q.
Proof.
  intros Hsel. apply covtest_select_spec in Hsel as (_ & _ & ->).
  rewrite np_dot_vscale_r. fold (corr X Y idx).
  rewrite <- np_sign_mult_abs. ring.
Qed.

(** C5. On the approximate path ([exact = False]) the p-value that [covtest]
    returns is [exp(- L1 * (L1 - L2) / S^2)] for the [(L2, L1, _, S)] that
    [bounds] returned, the third component unused; when [bounds] keeps to
    [L2 <= observed <= L1] with a positive scale, it lies in [[0, 1]]. *)
Theorem covtest_approximate_pvalue_range `{AffineOps} (X : matrix) (Y : vector)
    (n p : nat) (sigma : option Q) (cov : option matrix)
    (con : constraints) (pvalue : R) (idx : nat) (sign : Q) :
  has_shape X n p -> (1 <= n)%nat -> (1 <= p)%nat -> length Y = n ->
  bounds_contract ->
  covtest X Y sigma false cov = Ok (con, pvalue, idx, sign) ->
  (exists L2 L1 U S',
     bounds con (vscale_r (col X idx) sign) Y = Ok (L2, L1, U, S')
     /\ pvalue = exp (Q2R (- L1 * (L1 - L2) / S' ^ 2)))
  /\ (0 <= pvalue <= 1)%R.
Proof.
  intros _ _ _ _ Hcontract Hc.
  pose proof (covtest_Ok_select _ _ _ _ _ _ _ _ _ Hc) as (Hsel & s2 & Hs2 & Hcon).
  unfold covtest in Hc. rewrite Hsel in Hc. cbn in Hc. rewrite Hs2 in Hc. cbn in Hc.
  rewrite <- Hcon in Hc.
  apply bind_Ok in Hc as ([[[L2 L1] U] S'] & Hb & Hc). injection Hc as <-.
  split; [exists L2, L1, U, S'; split; [exact Hb | reflexivity]|].
  apply Hcontract in Hb as (HL2 & HL1 & HS).
  rewrite (observed_nonneg X Y idx sign Hsel) in HL2, HL1.
  pose proof (Qabs_nonneg (corr X Y idx)).
  apply np_exp_range, exponent_nonpos; lra.
Qed.

Lemma spec_affine_bounds_contract : bounds_contract (H := spec_affine).
Proof.
  intros con eta y L2 L1 U S' Hb. cbn in Hb. injection Hb as <- <- <- <-.
  repeat split; lra.
Qed.

Lemma covtest_approximate_pvalue_range_witness :
  exists con pvalue,
    covtest (H := spec_affine) X_ex Y_ex (Some 1%Q) false None = Ok (con, pvalue, 1%nat, 1%Q)
    /\ (exists L2 L1 U S',
          bounds (AffineOps := spec_affine) con (vscale_r (col X_ex 1) 1) Y_ex
          = Ok (L2, L1, U, S')
          /\ pvalue = exp (Q2R (- L1 * (L1 - L2) / S' ^ 2)))
    /\ (0 <= pvalue <= 1)%R.
Proof.
  do 2 eexists. split; [reflexivity|].
  apply (covtest_approximate_pvalue_range (H := spec_affine) X_ex Y_ex 2 2 (Some 1%Q) None).
  - split; [reflexivity | repeat constructor].
  - lia.
  - lia.
  - reflexivity.
  - exact spec_affine_bounds_contract.
  - reflexivity.
Defined.

(** ** [forward_step]: the store *)

Section ForwardStepStore.
Context `{AffineOps} `{SqrtOp} {selector : Type} `{StepwiseSelector selector}.

Lemma load2_insert (h : heap) (l : loc) (M : matrix) : load2 (<[l := Arr2 M]> h) l = M.
Proof. unfold load2. now rewrite lookup_insert_eq. Qed.

Lemma lookup_standardize (h : heap) (l l' : loc) :
  scale_inplace (center_inplace h l) l !! l'
  = if decide (l = l') then Some (Arr2 (standardized (load2 h l))) else h !! l'.
Proof.
  unfold scale_inplace, center_inplace. rewrite load2_insert.
  destruct (decide (l = l')) as [->|Hne].
  - now rewrite lookup_insert_eq.
  - now rewrite !lookup_insert_ne.
Qed.

(** A new array does not disturb the arrays in the store. *)
Lemma lookup_alloc (h : heap) (a b : ndarray) (l : loc) :
  h !! l = Some b ->
  (alloc h a).1 !! l = Some b /\ (alloc h a).1 !! (alloc h a).2 = Some a
  /\ (alloc h a).2 <> l.
Proof.
  intros Hl. unfold alloc. cbn.
  assert (Hne : fresh (dom h) <> l).
  { intros Heq. apply (is_fresh (dom h)). rewrite Heq. apply elem_of_dom. eauto. }
  split; [|split; [apply lookup_insert_eq | exact Hne]].
  rewrite lookup_insert_ne; [exact Hl | exact Hne].
Qed.

(** Lines 228-237 leave in the store the arrays that were there, except the
    one named [RX], which is standardized; without a projection [RX] is [X]. *)
Lemma residualize_standardize (h : heap) (lX lY : loc) (n : nat) (Pi : option projection)
    (X : matrix) (Y : vector) :
  h !! lX = Some (Arr2 X) -> h !! lY = Some (Arr1 Y) ->
  let '(h1, lRX, lRY, _) := residualize h lX lY n Pi in
  let h2 := scale_inplace (center_inplace h1 lRX) lRX in
  h2 !! lY = Some (Arr1 Y)
  /\ h2 !! lX = Some (Arr2 (match Pi with Some _ => X | None => standardized X end))
  /\ load2 h2 lRX
     = standardized (match Pi with Some P => msub X (proj_apply_m P X) | None => X end).
Proof.
  intros HX HY.
  assert (Hne : lX <> lY) by (intros ->; congruence).
  assert (HlX : load2 h lX = X) by (unfold load2; now rewrite HX).
  destruct Pi as [P|]; cbn [residualize].
  - rewrite HlX.
    pose proof (lookup_alloc h (Arr2 (msub X (proj_apply_m P X))) _ lX HX)
      as (HX1 & HRX1 & HneX).
    pose proof (lookup_alloc h (Arr2 (msub X (proj_apply_m P X))) _ lY HY)
      as (HY1 & _ & HneY).
    destruct (alloc h (Arr2 (msub X (proj_apply_m P X)))) as [h1 lRX].
    cbn [fst snd] in HX1, HRX1, HY1, HneX, HneY.
    pose proof (lookup_alloc h1 (Arr1 (vsub (load1 h1 lY) (proj_apply_v P (load1 h1 lY))))
                  _ lX HX1) as (HX2 & _ & _).
    pose proof (lookup_alloc h1 (Arr1 (vsub (load1 h1 lY) (proj_apply_v P (load1 h1 lY))))
                  _ lY HY1) as (HY2 & _ & _).
    pose proof (lookup_alloc h1 (Arr1 (vsub (load1 h1 lY) (proj_apply_v P (load1 h1 lY))))
                  _ lRX HRX1) as (HRX2 & _ & _).
    destruct (alloc h1 (Arr1 (vsub (load1 h1 lY) (proj_apply_v P (load1 h1 lY)))))
      as [h2 lRY].
    cbn [fst] in HX2, HY2, HRX2. cbn zeta.
    rewrite !lookup_standardize.
    destruct (decide (lRX = lY)) as [|_]; [contradiction|].
    destruct (decide (lRX = lX)) as [|_]; [contradiction|].
    split; [exact HY2|]. split; [exact HX2|].
    unfold load2 at 1. rewrite lookup_standardize.
    destruct (decide (lRX = lRX)) as [_|]; [|contradiction].
    f_equal. unfold load2. rewrite HRX2. reflexivity.
  - cbn zeta. rewrite !lookup_standardize.
    destruct (decide (lX = lY)) as [|_]; [contradiction|].
    destruct (decide (lX = lX)) as [_|]; [|contradiction].
    split; [exact HY|].
    rewrite HlX. split; [reflexivity|].
    unfold load2. rewrite lookup_standardize.
    destruct (decide (lX = lX)) as [_|]; [|contradiction].
    now rewrite HlX.
Qed.

(** One pass through the body keeps [Y] and keeps a matrix at [lX]. *)
Lemma fs_step_store (lX lY : loc) (n : nat) (sigma : option Q) (exact : bool)
    (burnin ndraw : Z) (i : nat) (st : loop_state) (h : heap) (X : matrix) (Y : vector) :
  h !! lX = Some (Arr2 X) -> h !! lY = Some (Arr1 Y) ->
  let h' := (fs_step lX lY n sigma exact burnin ndraw i st h).1 in
  h' !! lY = Some (Arr1 Y) /\ exists X', h' !! lX = Some (Arr2 X').
Proof.
  intros HX HY. unfold fs_step.
  destruct (FS_next (FS st) (load2 h lX) (load1 h lY)) as [FS'|e]; [|cbn; eauto].
  destruct (py_index (FS_P FS') i) as [Pi|e]; [|cbn; eauto].
  pose proof (residualize_standardize h lX lY n Pi X Y HX HY) as Hres.
  destruct (residualize h lX lY n Pi) as [[[h1 lRX] lRY] cov].
  cbn [fst]. destruct Hres as (HY' & HX' & _). eauto.
Qed.

Lemma fs_loop_store (lX lY : loc) (n : nat) (sigma : option Q) (exact : bool)
    (burnin ndraw : Z) (indices : list nat) (st : loop_state) (h : heap)
    (X : matrix) (Y : vector) :
  h !! lX = Some (Arr2 X) -> h !! lY = Some (Arr1 Y) ->
  (fs_loop lX lY n sigma exact burnin ndraw indices st h).1 !! lY = Some (Arr1 Y).
Proof.
  revert st h X. induction indices as [|i rest IH]; intros st h X HX HY; cbn [fs_loop].
  - exact HY.
  - pose proof (fs_step_store lX lY n sigma exact burnin ndraw i st h X Y HX HY) as Hstep.
    destruct (fs_step lX lY n sigma exact burnin ndraw i st h) as [h' [st'|e]];
      cbn [fst] in Hstep; destruct Hstep as [HY' [X' HX']].
    + exact (IH st' h' X' HX' HY').
    + exact HY'.
Qed.

(** C9. At a step where the selector has no projection ([FS.P[i]] is
    [None]), [RX] is the caller's array [X] itself, so the two in-place
    updates leave the standardized matrix in the caller's [X]; the caller's
    [Y] holds after [forward_step], returning or raising, what it held
    before. *)
Theorem forward_step_standardizes_caller_X (lX lY : loc) (h : heap)
    (X : matrix) (Y : vector) :
  h !! lX = Some (Arr2 X) -> h !! lY = Some (Arr1 Y) ->
  (forall n, residualize h lX lY n None = (h, lX, lY, None))
  /\ (forall n sigma exact burnin ndraw i st FS',
        FS_next (FS st) X Y = Ok FS' ->
        FS_P FS' !! i = Some None ->
        let h' := (fs_step lX lY n sigma exact burnin ndraw i st h).1 in
        h' !! lX = Some (Arr2 (standardized X)) /\ h' !! lY = Some (Arr1 Y))
  /\ (forall sigma nstep exact burnin ndraw,
        (forward_step lX lY sigma nstep exact burnin ndraw h).1 !! lY = Some (Arr1 Y)).
Proof.
  intros HX HY. split; [reflexivity|]. split.
  - intros n sigma exact burnin ndraw i st FS' Hnext HP.
    assert (HlX : load2 h lX = X) by (unfold load2; now rewrite HX).
    assert (HlY : load1 h lY = Y) by (unfold load1; now rewrite HY).
    unfold fs_step. rewrite HlX, HlY, Hnext. unfold py_index. rewrite HP.
    pose proof (residualize_standardize h lX lY n None X Y HX HY) as Hres.
    cbn [residualize] in *. cbn zeta in Hres. cbn [fst].
    destruct Hres as (HY' & HX' & _). split; assumption.
  - intros sigma nstep exact burnin ndraw. unfold forward_step.
    destruct (shape (load2 h lX)) as [n p].
    destruct (forward_stepwise (load2 h lX) (load1 h lY)) as [FS0|e]; [|exact HY].
    pose proof (fs_loop_store lX lY n sigma exact burnin ndraw (py_range nstep)
                  {| FS := FS0; covtest_P := []; reduced_P := [] |} h X Y HX HY) as Hloop.
    destruct (fs_loop lX lY n sigma exact burnin ndraw (py_range nstep) _ h) as [h' [st|e]];
      exact Hloop.
Qed.
End ForwardStepStore.

(** ** [forward_step]: shapes *)

Lemma length_transpose (M : matrix) : length (transpose M) = ncols M.
Proof. unfold transpose. rewrite length_map. apply length_seq. Qed.

Lemma ncols_sub_row (M : matrix) (v : vector) :
  length v = ncols M -> ncols (sub_row M v) = ncols M.
Proof.
  destruct M as [|r M]; [reflexivity|]. unfold ncols. cbn. intros Hv.
  unfold vsub. rewrite length_zip_with. lia.
Qed.

Lemma ncols_div_row (M : matrix) (v : vector) :
  length v = ncols M -> ncols (div_row M v) = ncols M.
Proof.
  destruct M as [|r M]; [reflexivity|]. unfold ncols. cbn. intros Hv.
  rewrite length_zip_with. lia.
Qed.

Lemma ncols_msub (A B : matrix) : shape B = shape A -> ncols (msub A B) = ncols A.
Proof.
  unfold shape, nrows, ncols. intros Hshape. injection Hshape as Hrows Hcols.
  destruct A as [|a A], B as [|b B]; try discriminate; [reflexivity|].
  cbn in *. unfold vsub. rewrite length_zip_with. lia.
Qed.

Section ForwardStepRuns.
Context `{AffineOps} `{SqrtOp} {selector : Type} `{StepwiseSelector selector}.

Lemma ncols_standardized (M : matrix) : ncols (standardized M) = ncols M.
Proof.
  unfold standardized. cbn zeta.
  assert (Hsub : ncols (sub_row M (np_mean0 M)) = ncols M).
  { apply ncols_sub_row. unfold np_mean0. rewrite length_map. apply length_transpose. }
  rewrite ncols_div_row; [exact Hsub|].
  unfold np_std0. rewrite length_map. apply length_transpose.
Qed.

(** ** [forward_step] without [sigma] *)

Lemma covtest_None (X : matrix) (Y : vector) (exact : bool) (cov : option matrix) :
  (exists e, covtest X Y None exact cov = Raise e)
  /\ ((1 <= ncols X)%nat -> covtest X Y None exact cov = Raise TypeError).
Proof.
  unfold covtest. split.
  - destruct (covtest_select X Y) as [[idx sign]|e]; cbn; eauto.
  - intros Hp. destruct (covtest_select_Ok X Y Hp) as (idx & sign & ->). reflexivity.
Qed.

Lemma step_tests_None (h : heap) (lY lRX lRY : loc) (cov : option matrix) (exact : bool)
    (burnin ndraw : Z) (i : nat) (FS' : selector) (st : loop_state) :
  (exists e, step_tests h lY lRX lRY cov None exact burnin ndraw i FS' st = Raise e)
  /\ ((1 <= ncols (load2 h lRX))%nat ->
      step_tests h lY lRX lRY cov None exact burnin ndraw i FS' st = Raise TypeError).
Proof.
  unfold step_tests. cbn zeta.
  destruct (covtest_None (load2 h lRX) (load1 h lRY) exact cov) as [[e He] Htype].
  split.
  - rewrite He. cbn. eauto.
  - intros Hp. rewrite (Htype Hp). reflexivity.
Qed.

Lemma fs_step_None (lX lY : loc) (n : nat) (exact : bool) (burnin ndraw : Z) (i : nat)
    (st : loop_state) (h : heap) :
  exists e, (fs_step lX lY n None exact burnin ndraw i st h).2 = Raise e.
Proof.
  unfold fs_step.
  destruct (FS_next (FS st) (load2 h lX) (load1 h lY)) as [FS'|e]; [|cbn; eauto].
  destruct (py_index (FS_P FS') i) as [Pi|e]; [|cbn; eauto].
  destruct (residualize h lX lY n Pi) as [[[h1 lRX] lRY] cov]. cbn [snd].
  apply step_tests_None.
Qed.

Lemma py_range_pos (nstep : Z) :
  (1 <= nstep)%Z -> py_range nstep = 0%nat :: seq 1 (Z.to_nat nstep - 1).
Proof.
  intros Hn. unfold py_range.
  replace (Z.to_nat nstep) with (S (Z.to_nat nstep - 1)) at 1 by lia. reflexivity.
Qed.

(** C10. With [sigma = None] and at least one step, [forward_step] never
    returns its two sequences: it raises.  When the selector can be built and
    advanced once, [P[0]] is there (a projection among them keeping the shape
    of [X]) and [X] has a column, what it raises, in the first pass through
    the body, is the type error of [sigma**2] in [covtest]. *)
Theorem forward_step_without_sigma (lX lY : loc) (nstep : Z) (exact : bool)
    (burnin ndraw : Z) (h : heap) (X : matrix) (Y : vector) :
  h !! lX = Some (Arr2 X) -> h !! lY = Some (Arr1 Y) ->
  (1 <= nstep)%Z ->
  (exists e, (forward_step lX lY None nstep exact burnin ndraw h).2 = Raise e)
  /\ (forall FS0 FS1 Pi,
        (1 <= ncols X)%nat ->
        forward_stepwise X Y = Ok FS0 ->
        FS_next FS0 X Y = Ok FS1 ->
        FS_P FS1 !! 0%nat = Some Pi ->
        (forall P, Pi = Some P -> shape (proj_apply_m P X) = shape X) ->
        (forward_step lX lY None nstep exact burnin ndraw h).2 = Raise TypeError).
Proof.
  intros HX HY Hn.
  assert (HlX : load2 h lX = X) by (unfold load2; now rewrite HX).
  assert (HlY : load1 h lY = Y) by (unfold load1; now rewrite HY).
  unfold forward_step. rewrite HlX, HlY, (py_range_pos nstep Hn).
  change (shape X) with (nrows X, ncols X). cbn iota. split.
  - destruct (forward_stepwise X Y) as [FS0|e]; [|cbn; eauto].
    cbn [fs_loop].
    destruct (fs_step_None lX lY (nrows X) exact burnin ndraw 0
                {| FS := FS0; covtest_P := []; reduced_P := [] |} h) as [e He].
    destruct (fs_step lX lY (nrows X) None exact burnin ndraw 0 _ h) as [h' [st'|e']];
      cbn [snd] in *; [discriminate | eauto].
  - intros FS0 FS1 Pi Hp HFS0 HFS1 HP Hshape. rewrite HFS0. cbn [fs_loop].
    unfold fs_step. cbn [FS]. rewrite HlX, HlY, HFS1. unfold py_index. rewrite HP.
    pose proof (residualize_standardize h lX lY (nrows X) Pi X Y HX HY) as Hres.
    destruct (residualize h lX lY (nrows X) Pi) as [[[h1 lRX] lRY] cov].
    cbn zeta in Hres. destruct Hres as (_ & _ & HRX).
    destruct (step_tests_None (scale_inplace (center_inplace h1 lRX) lRX) lY lRX lRY cov
                exact burnin ndraw 0 FS1 {| FS := FS0; covtest_P := []; reduced_P := [] |})
      as [_ Htype].
    rewrite Htype; [reflexivity|].
    rewrite HRX, ncols_standardized.
    destruct Pi as [P|]; [|exact Hp].
    rewrite ncols_msub; [exact Hp | apply Hshape; reflexivity].
Qed.

(** ** [forward_step]: one entry per step *)

Lemma step_tests_Ok (h : heap) (lY lRX lRY : loc) (cov : option matrix) (sigma : option Q)
    (exact : bool) (burnin ndraw : Z) (i : nat) (FS' : selector) (st st' : loop_state) :
  step_tests h lY lRX lRY cov sigma exact burnin ndraw i FS' st = Ok st' ->
  FS st' = FS'
  /\ length (covtest_P st') = S (length (covtest_P st))
  /\ length (reduced_P st') = S (length (reduced_P st)).
Proof.
  unfold step_tests. cbn zeta. intros Hs.
  apply bind_Ok in Hs as ([[[con pval] idx] sign] & _ & Hs).
  apply bind_Ok in Hs as (Acon & _ & Hs).
  apply bind_Ok in Hs as (s2 & _ & Hs).
  apply bind_Ok in Hs as (Z & _ & Hs).
  injection Hs as <-. cbn. rewrite !length_app. cbn. repeat split; lia.
Qed.

Lemma fs_step_Ok (lX lY : loc) (n : nat) (sigma : option Q) (exact : bool)
    (burnin ndraw : Z) (i : nat) (st st' : loop_state) (h h' : heap) :
  fs_step lX lY n sigma exact burnin ndraw i st h = (h', Ok st') ->
  length (covtest_P st') = S (length (covtest_P st))
  /\ length (reduced_P st') = S (length (reduced_P st)).
Proof.
  unfold fs_step.
  destruct (FS_next (FS st) (load2 h lX) (load1 h lY)) as [FS'|e]; [|discriminate].
  destruct (py_index (FS_P FS') i) as [Pi|e]; [|discriminate].
  destruct (residualize h lX lY n Pi) as [[[h1 lRX] lRY] cov].
  intros [= _ Hs]. apply step_tests_Ok in Hs as (_ & Hc & Hr). split; assumption.
Qed.

(** A loop that ends without an exception went through its body once for
    every index, and every pass added one entry to each sequence. *)
Lemma fs_loop_Ok (lX lY : loc) (n : nat) (sigma : option Q) (exact : bool)
    (burnin ndraw : Z) (i k : nat) (st st' : loop_state) (h h' : heap) :
  fs_loop lX lY n sigma exact burnin ndraw (seq i k) st h = (h', Ok st') ->
  iterations lX lY n sigma exact burnin ndraw i k st h st' h'
  /\ length (covtest_P st') = (length (covtest_P st) + k)%nat
  /\ length (reduced_P st') = (length (reduced_P st) + k)%nat.
Proof.
  revert i st h. induction k as [|k IH]; intros i st h; cbn [seq fs_loop].
  - intros [= <- <-]. split; [constructor | lia].
  - destruct (fs_step lX lY n sigma exact burnin ndraw i st h) as [h1 [st1|e]] eqn:Hstep;
      [|discriminate].
    intros Hloop. apply IH in Hloop as (Hit & Hc & Hr).
    apply fs_step_Ok in Hstep as Hlen. destruct Hlen as [Hc1 Hr1].
    split; [econstructor; eassumption | lia].
Qed.

(** With collaborators that return, the body returns. *)
Lemma fs_step_returns (lX lY : loc) (n : nat) (s : Q) (exact : bool) (burnin ndraw : Z)
    (i : nat) (st : loop_state) (h : heap) (X : matrix) (Y : vector) :
  affine_returns -> selector_returns ->
  selector_state i (FS st) ->
  h !! lX = Some (Arr2 X) -> (1 <= ncols X)%nat -> h !! lY = Some (Arr1 Y) ->
  exists h' st' X',
    fs_step lX lY n (Some s) exact burnin ndraw i st h = (h', Ok st')
    /\ selector_state (S i) (FS st')
    /\ h' !! lX = Some (Arr2 X') /\ (1 <= ncols X')%nat /\ h' !! lY = Some (Arr1 Y).
Proof.
  intros (Hpivot & Hbounds & Hcond & Hsim) [_ Hnext] Hstate HX Hp HY.
  unfold fs_step.
  destruct (Hnext i (FS st) (load2 h lX) (load1 h lY) Hstate) as (FS' & -> & Hstate').
  destruct Hstate' as (Hlen & HP0 & HPj).
  assert (HPi : exists Pi, FS_P FS' !! i = Some Pi
                 /\ (forall P, Pi = Some P -> forall M, shape (proj_apply_m P M) = shape M)
                 /\ ((0 < i)%nat -> exists P, Pi = Some P)).
  { destruct i as [|i].
    - exists None. split; [exact HP0|]. split; [discriminate | lia].
    - destruct (HPj (S i) ltac:(lia)) as (P & HP & Hshape).
      exists (Some P). split; [exact HP|]. split; [|eauto].
      intros P' [= <-]. exact Hshape. }
  destruct HPi as (Pi & HPi & Hshape & Hsome).
  unfold py_index at 1. rewrite HPi.
  pose proof (residualize_standardize h lX lY n Pi X Y HX HY) as Hres.
  destruct (residualize h lX lY n Pi) as [[[h1 lRX] lRY] cov].
  cbn zeta in Hres. destruct Hres as (HY' & HX' & HRX).
  set (h2 := scale_inplace (center_inplace h1 lRX) lRX) in *.
  assert (HpRX : (1 <= ncols (load2 h2 lRX))%nat).
  { rewrite HRX, ncols_standardized. destruct Pi as [P|]; [|exact Hp].
    rewrite ncols_msub; [exact Hp | now apply Hshape]. }
  unfold step_tests. cbn zeta.
  destruct (covtest_returns (load2 h2 lRX) (load1 h2 lRY) s exact cov HpRX Hpivot Hbounds)
    as [[[[con pval] idx] sign] ->].
  cbn [mbind result_bind].
  match goal with
  | |- context [@mbind result _ _ _ ?f ?m] =>
      assert (Hacon : exists Acon, m = Ok Acon)
  end.
  { destruct (decide (0 < i)%nat) as [Hi|Hi]; [|eauto].
    destruct (Hsome Hi) as [P ->].
    unfold py_index_m2. rewrite Hlen.
    destruct (decide (2 <= S (S i))%nat) as [_|]; [|lia].
    unfold py_index. replace (S (S i) - 2)%nat with i by lia. rewrite HPi.
    cbn [mbind result_bind]. apply Hcond. }
  destruct Hacon as [Acon ->]. cbn [mbind result_bind py_pow2].
  match goal with
  | |- context [simulate_from_constraints ?c ?y ?a ?b] =>
      destruct (Hsim c y a b) as [Z ->]
  end.
  cbn [mbind result_bind].
  eexists _, _, _. split; [reflexivity|]. cbn [FS].
  split; [exact (conj Hlen (conj HP0 HPj))|].
  split; [exact HX'|]. split; [|exact HY'].
  destruct Pi; [exact Hp | now rewrite ncols_standardized].
Qed.

Lemma fs_loop_returns (lX lY : loc) (n : nat) (s : Q) (exact : bool) (burnin ndraw : Z)
    (i k : nat) (st : loop_state) (h : heap) (X : matrix) (Y : vector) :
  affine_returns -> selector_returns ->
  selector_state i (FS st) ->
  h !! lX = Some (Arr2 X) -> (1 <= ncols X)%nat -> h !! lY = Some (Arr1 Y) ->
  exists h' st', fs_loop lX lY n (Some s) exact burnin ndraw (seq i k) st h = (h', Ok st').
Proof.
  intros Haff Hsel. revert i st h X.
  induction k as [|k IH]; intros i st h X Hstate HX Hp HY; cbn [seq fs_loop]; [eauto|].
  destruct (fs_step_returns lX lY n s exact burnin ndraw i st h X Y Haff Hsel Hstate HX Hp HY)
    as (h1 & st1 & X1 & -> & Hstate1 & HX1 & Hp1 & HY1).
  exact (IH (S i) st1 h1 X1 Hstate1 HX1 Hp1 HY1).
Qed.

(** C6. For [nstep >= 1], a call of [forward_step] that returns went through
    the body of its loop exactly [nstep] times, for the indices 0, ...,
    [nstep - 1] and with no other way out than an exception, and returns two
    sequences of [nstep] entries each; and it does return when [sigma] is a
    number, [X] has a column and the collaborators return. *)
Theorem forward_step_nstep_iterations (lX lY : loc) (sigma : option Q) (nstep : Z)
    (exact : bool) (burnin ndraw : Z) (h : heap) (X : matrix) (Y : vector) :
  h !! lX = Some (Arr2 X) -> h !! lY = Some (Arr1 Y) ->
  (1 <= nstep)%Z ->
  (forall h' covtest_pvalues reduced_pvalues,
     forward_step lX lY sigma nstep exact burnin ndraw h
     = (h', Ok (covtest_pvalues, reduced_pvalues)) ->
     Z.of_nat (length covtest_pvalues) = nstep
     /\ Z.of_nat (length reduced_pvalues) = nstep
     /\ exists FS0 st',
          forward_stepwise X Y = Ok FS0
          /\ iterations lX lY (nrows X) sigma exact burnin ndraw 0 (Z.to_nat nstep)
               {| FS := FS0; covtest_P := []; reduced_P := [] |} h st' h'
          /\ covtest_pvalues = covtest_P st' /\ reduced_pvalues = reduced_P st')
  /\ (forall s,
        sigma = Some s -> (1 <= ncols X)%nat -> affine_returns -> selector_returns ->
        exists h' covtest_pvalues reduced_pvalues,
          forward_step lX lY sigma nstep exact burnin ndraw h
          = (h', Ok (covtest_pvalues, reduced_pvalues))).
Proof.
  intros HX HY Hn.
  assert (HlX : load2 h lX = X) by (unfold load2; now rewrite HX).
  assert (HlY : load1 h lY = Y) by (unfold load1; now rewrite HY).
  unfold forward_step, shape, py_range. rewrite HlX, HlY. split.
  - intros h' cP rP Hrun.
    destruct (forward_stepwise X Y) as [FS0|e]; [|discriminate].
    destruct (fs_loop lX lY (nrows X) sigma exact burnin ndraw (seq 0 (Z.to_nat nstep)) _ h)
      as [h1 [st'|e]] eqn:Hloop; [|discriminate].
    injection Hrun as -> <- <-.
    apply fs_loop_Ok in Hloop as (Hit & Hc & Hr). cbn in Hc, Hr.
    split; [lia|]. split; [lia|]. exists FS0, st'. auto.
  - intros s -> Hp Haff Hsel.
    destruct (proj1 Hsel X Y) as (FS0 & -> & Hstate).
    destruct (fs_loop_returns lX lY (nrows X) s exact burnin ndraw 0 (Z.to_nat nstep)
                {| FS := FS0; covtest_P := []; reduced_P := [] |} h X Y Haff Hsel Hstate
                HX Hp HY) as (h' & st' & ->).
    eauto.
Qed.
End ForwardStepRuns.

(** ** The model on concrete inputs *)

Lemma spec_affine_returns : affine_returns (H := spec_affine).
Proof. repeat split; intros; eexists; reflexivity. Qed.

Lemma shape_zero_projection (n : nat) (M : matrix) :
  shape (proj_apply_m (zero_projection n) M) = shape M.
Proof.
  cbn. unfold shape, nrows, ncols. rewrite length_map.
  destruct M as [|r M]; cbn; [reflexivity|]. now rewrite length_map.
Qed.

Lemma spec_selector_returns : selector_returns (H1 := spec_selector).
Proof.
  split.
  - intros X Y. eexists. split; [reflexivity|]. unfold selector_state. cbn.
    split; [reflexivity|]. split; [reflexivity|]. intros j Hj. lia.
  - intros k fs X Y (Hlen & HP0 & HPj). eexists. split; [reflexivity|].
    unfold selector_state. cbn in *. split; [|split].
    + rewrite length_app, Hlen. cbn. lia.
    + rewrite lookup_app_l by lia. exact HP0.
    + intros j Hj. destruct (decide (j = S k)) as [->|Hne].
      * exists (zero_projection (length X)). split; [|apply shape_zero_projection].
        rewrite lookup_app_r by lia. rewrite Hlen, Nat.sub_diag. reflexivity.
      * rewrite lookup_app_l by lia. apply HPj. lia.
Qed.

Lemma forward_step_nstep_iterations_witness :
  exists h' covtest_pvalues reduced_pvalues,
    forward_step (H := spec_affine) (H0 := sqrt_of_squares) (H1 := spec_selector)
      0 1 (Some 1%Q) 2 false 1000 5000 h_fs
    = (h', Ok (covtest_pvalues, reduced_pvalues))
    /\ Z.of_nat (length covtest_pvalues) = 2%Z
    /\ Z.of_nat (length reduced_pvalues) = 2%Z.
Proof.
  destruct (forward_step_nstep_iterations (H := spec_affine) (H0 := sqrt_of_squares)
              (H1 := spec_selector) 0 1 (Some 1%Q) 2 false 1000 5000 h_fs X_fs Y_fs
              ltac:(reflexivity) ltac:(reflexivity) ltac:(lia)) as [Hlen Hret].
  destruct (Hret 1%Q eq_refl ltac:(cbn; lia) spec_affine_returns spec_selector_returns)
    as (h' & cP & rP & Hrun).
  exists h', cP, rP. split; [exact Hrun|].
  destruct (Hlen h' cP rP Hrun) as (Hc & Hr & _). split; assumption.
Defined.

Lemma forward_step_standardizes_caller_X_witness :
  (fs_step (H := spec_affine) (H0 := sqrt_of_squares) (H1 := spec_selector)
     0 1 2 (Some 1%Q) false 1000 5000 0
     {| FS := {| ls_P := [None]; ls_A := [] |}; covtest_P := []; reduced_P := [] |} h_fs).1
    !! 0%nat
  = Some (Arr2 (standardized (H0 := sqrt_of_squares) X_fs))
  /\ (forward_step (H := spec_affine) (H0 := sqrt_of_squares) (H1 := spec_selector)
        0 1 (Some 1%Q) 2 false 1000 5000 h_fs).1 !! 1%nat
     = Some (Arr1 Y_fs).
Proof.
  destruct (forward_step_standardizes_caller_X (H := spec_affine) (H0 := sqrt_of_squares)
              (H1 := spec_selector) 0 1 h_fs X_fs Y_fs
              ltac:(reflexivity) ltac:(reflexivity)) as (_ & Hstep & Hrun).
  split.
  - apply (Hstep 2%nat (Some 1%Q) false 1000%Z 5000%Z 0%nat
             {| FS := {| ls_P := [None]; ls_A := [] |}; covtest_P := []; reduced_P := [] |}
             {| ls_P := [None; Some (zero_projection 2)]; ls_A := [np_zeros 2] |});
      reflexivity.
  - apply Hrun.
Defined.

(** What the first step leaves in the caller's design [X_fs]: its columns
    had mean 2 and standard deviation 1. *)
Lemma standardized_X_fs :
  standardized (H0 := sqrt_of_squares) X_fs = [[2 # 2; -2 # 2]; [-2 # 2; 2 # 2]]%Q.
Proof. reflexivity. Qed.

Lemma forward_step_without_sigma_witness :
  (forward_step (H := spec_affine) (H0 := sqrt_of_squares) (H1 := spec_selector)
     0 1 None 5 false 1000 5000 h_fs).2
  = Raise TypeError.
Proof.
  destruct (forward_step_without_sigma (H := spec_affine) (H0 := sqrt_of_squares)
              (H1 := spec_selector) 0 1 5 false 1000 5000 h_fs X_fs Y_fs
              ltac:(reflexivity) ltac:(reflexivity) ltac:(lia)) as [_ Htype].
  apply (Htype {| ls_P := [None]; ls_A := [] |}
           {| ls_P := [None; Some (zero_projection 2)]; ls_A := [np_zeros 2] |} None).
  - cbn. lia.
  - reflexivity.
  - reflexivity.
  - reflexivity.
  - discriminate.
Defined.

(** With no step to take, [forward_step] returns two empty sequences,
    whatever [sigma] is. *)
Lemma forward_step_no_step :
  (forward_step (H := spec_affine) (H0 := sqrt_of_squares) (H1 := spec_selector)
     0 1 None 0 false 1000 5000 h_fs).2
  = Ok ([], []).
Proof. reflexivity. Qed.

(** * Further properties of [covtest] *)

Lemma np_dot_vscale_2 (c : Q) (a z : vector) :
  (np_dot a (vscale c z) == c * np_dot a z)%Q.
Proof.
  revert z. induction a as [|x a IH]; intros [|w z]; try (cbn; ring).
  cbn [vscale map]. rewrite !np_dot_cons. fold (vscale c z). rewrite IH. ring.
Qed.

Lemma np_dot_vadd_2 (a z1 z2 : vector) :
  length z1 = length z2 ->
  (np_dot a (vadd z1 z2) == np_dot a z1 + np_dot a z2)%Q.
Proof.
  revert z1 z2. induction a as [|x a IH]; intros [|w1 z1] [|w2 z2] Hlen;
    try discriminate; try (cbn; ring).
  injection Hlen as Hlen. unfold vadd. cbn [zip_with].
  rewrite !np_dot_cons. fold (vadd z1 z2). rewrite (IH z1 z2 Hlen). ring.
Qed.

Lemma np_dot_zeros (a : vector) (n : nat) : (np_dot a (np_zeros n) == 0)%Q.
Proof.
  revert n. induction a as [|x a IH]; intros [|n]; try reflexivity.
  unfold np_zeros. cbn [replicate]. rewrite np_dot_cons. fold (np_zeros n).
  rewrite IH. ring.
Qed.

(** On a design with rows and no column, [argsort(...)[-1]] has nothing to
    index: [covtest] raises an index error, before it looks at [sigma]. *)
Theorem covtest_no_column `{AffineOps} (X : matrix) (Y : vector) (n : nat)
    (sigma : option Q) (exact : bool) (cov : option matrix) :
  has_shape X n 0 -> (1 <= n)%nat ->
  covtest X Y sigma exact cov = Raise IndexError.
Proof.
  intros Hshape Hn. pose proof (ncols_has_shape X n 0 Hshape Hn) as Hp.
  unfold covtest, covtest_select, correlations, transpose.
  rewrite Hp. reflexivity.
Qed.

Lemma covtest_no_column_witness :
  covtest (H := spec_affine) [[]; []] [1; 2]%Q None true None = Raise IndexError.
Proof.
  apply (covtest_no_column (H := spec_affine) [[]; []] [1; 2]%Q 2).
  - split; [reflexivity | repeat constructor].
  - lia.
Defined.






(** ** Ties *)

Section StableArgsort.
Variable key : nat -> Q.



End StableArgsort.



(** ** What the selection and the region depend on *)

(** The column, the sign, the rows and the offset that [covtest] returns
    depend on [X] and [Y] only: [sigma], [exact] and [covariance] change the
    covariance of the constraint and the p-value, and nothing else. *)
Theorem covtest_selection_independent `{AffineOps} (X : matrix) (Y : vector)
    (sigma sigma' : option Q) (exact exact' : bool) (cov cov' : option matrix)
    (con con' : constraints) (pvalue pvalue' : R) (idx idx' : nat) (sign sign' : Q) :
  covtest X Y sigma exact cov = Ok (con, pvalue, idx, sign) ->
  covtest X Y sigma' exact' cov' = Ok (con', pvalue', idx', sign') ->
  idx' = idx /\ sign' = sign
  /\ linear_part con' = linear_part con /\ offset con' = offset con.
Proof.
  intros Hc Hc'.
  apply covtest_Ok_select in Hc as (Hsel & s2 & _ & ->).
  apply covtest_Ok_select in Hc' as (Hsel' & s2' & _ & ->).
  rewrite Hsel in Hsel'. injection Hsel' as <- <-. repeat split; reflexivity.
Qed.

Lemma covtest_selection_independent_witness :
  exists con con' pvalue',
    covtest (H := spec_affine) X_ex Y_ex (Some 1%Q) true None = Ok (con, 1%R, 1%nat, 1%Q)
    /\ covtest (H := spec_affine) X_ex Y_ex (Some 2%Q) false (Some (np_identity 2))
       = Ok (con', pvalue', 1%nat, 1%Q)
    /\ (1%nat = 1%nat /\ 1%Q = 1%Q
        /\ linear_part con' = linear_part con /\ offset con' = offset con).
Proof.
  do 3 eexists. split; [reflexivity|]. split; [reflexivity|].
  eapply (covtest_selection_independent (H := spec_affine) X_ex Y_ex
            (Some 1%Q) (Some 2%Q) true false None (Some (np_identity 2))); reflexivity.
Defined.

(** The region that [covtest] returns is a convex cone: it holds the zero
    response, and with two responses their sum and their multiples by a
    factor that is not negative. *)
Theorem covtest_region_cone `{AffineOps} (X : matrix) (Y : vector) (sigma : option Q)
    (exact : bool) (cov : option matrix)
    (con : constraints) (pvalue : R) (idx : nat) (sign : Q) :
  covtest X Y sigma exact cov = Ok (con, pvalue, idx, sign) ->
  (forall n, in_region con (np_zeros n))
  /\ (forall c z, (0 <= c)%Q -> in_region con z -> in_region con (vscale c z))
  /\ (forall z1 z2, length z1 = length z2 ->
        in_region con z1 -> in_region con z2 -> in_region con (vadd z1 z2)).
Proof.
  intros Hc. apply covtest_Ok_select in Hc as (_ & s2 & _ & ->).
  unfold scale_covariance, new_constraints. cbn [linear_part offset covariance].
  split; [|split].
  - intros n. apply in_region_zeros. rewrite List.Forall_forall. intros a _.
    rewrite np_dot_zeros. lra.
  - intros c z Hc Hz. apply in_region_zeros. apply in_region_zeros in Hz.
    rewrite List.Forall_forall in *. intros a Ha. specialize (Hz a Ha).
    rewrite np_dot_vscale_2. nra.
  - intros z1 z2 Hlen Hz1 Hz2. apply in_region_zeros.
    apply in_region_zeros in Hz1, Hz2.
    rewrite List.Forall_forall in *. intros a Ha.
    specialize (Hz1 a Ha). specialize (Hz2 a Ha).
    rewrite np_dot_vadd_2 by exact Hlen. lra.
Qed.

Lemma covtest_region_cone_witness :
  exists con,
    covtest (H := spec_affine) X_ex Y_ex (Some 1%Q) true None = Ok (con, 1%R, 1%nat, 1%Q)
    /\ (forall n, in_region con (np_zeros n))
    /\ (forall c z, (0 <= c)%Q -> in_region con z -> in_region con (vscale c z))
    /\ (forall z1 z2, length z1 = length z2 ->
          in_region con z1 -> in_region con z2 -> in_region con (vadd z1 z2)).
Proof.
  eexists. split; [reflexivity|].
  apply (covtest_region_cone (H := spec_affine) X_ex Y_ex (Some 1%Q) true None _ 1%R 1%nat 1%Q).
  reflexivity.
Defined.

(** ** Rescaling the response *)












(** ** Reordering the columns, in general *)



(** ** The approximate p-value, whatever [bounds] returns *)




(** * Further properties of [reduced_covtest] *)

(** With [sigma = 0.0], [sigma or 1] is 1: [reduced_covtest] builds its
    constraint as [covtest] does for [sigma = 1], and tells the sampler that
    [sigma] is known. *)
Theorem reduced_covtest_zero_sigma `{AffineOps} (X : matrix) (Y : vector)
    (ndraw burnin : Z) (s : Q) (cov : option matrix)
    (cone : constraints) (pvalue : R) (idx : nat) (sign : Q) :
  (s == 0)%Q ->
  reduced_covtest X Y ndraw burnin (Some s) cov = Ok (cone, pvalue, idx, sign)
  <-> exists pvalue0,
        covtest X Y (Some 1%Q) true cov = Ok (cone, pvalue0, idx, sign)
        /\ gibbs_test cone Y (vscale_r (col X idx) sign) ndraw burnin true = Ok pvalue.
Proof.
  intros Hs. rewrite reduced_covtest_Ok. cbn [py_or].
  apply Qeq_bool_iff in Hs. rewrite Hs. reflexivity.
Qed.

Lemma reduced_covtest_zero_sigma_witness :
  exists cone,
    reduced_covtest (H := spec_affine) X_ex Y_ex 5000 2000 (Some 0%Q) None
    = Ok (cone, 1%R, 1%nat, 1%Q)
    /\ exists pvalue0,
         covtest (H := spec_affine) X_ex Y_ex (Some 1%Q) true None
         = Ok (cone, pvalue0, 1%nat, 1%Q)
         /\ gibbs_test (AffineOps := spec_affine) cone Y_ex (vscale_r (col X_ex 1) 1) 5000 2000
              true = Ok 1%R.
Proof.
  eexists. split; [reflexivity|].
  apply (proj1 (reduced_covtest_zero_sigma (H := spec_affine) X_ex Y_ex 5000 2000
                  0%Q None _ 1%R 1%nat 1%Q ltac:(reflexivity))).
  reflexivity.
Defined.

(** [reduced_covtest] drops the p-value of [covtest], yet it calls [covtest]
    on its exact path: when [pivot] raises on the constraint of the selected
    column, [reduced_covtest] raises that exception and the sampler is not
    reached. *)
Theorem reduced_covtest_pivot_raises `{AffineOps} (X : matrix) (Y : vector)
    (ndraw burnin : Z) (sigma : option Q) (cov : option matrix)
    (idx : nat) (sign : Q) (e : exn) :
  covtest_select X Y = Ok (idx, sign) ->
  pivot
    (scale_covariance
       (new_constraints (covtest_selector X idx sign)
          (np_zeros (length (covtest_selector X idx sign))) cov)
       (py_or sigma 1%Q ^ 2))
    (vscale_r (col X idx) sign) Y greater = Raise e ->
  reduced_covtest X Y ndraw burnin sigma cov = Raise e.
Proof.
  intros Hsel Hpivot. unfold reduced_covtest, covtest.
  rewrite Hsel. cbn [mbind result_bind py_pow2]. rewrite Hpivot. reflexivity.
Qed.

Lemma reduced_covtest_pivot_raises_witness :
  reduced_covtest (H := raising_pivot) X_ex Y_ex 5000 2000 None None
  = Raise (Collaborator 1).
Proof.
  apply (reduced_covtest_pivot_raises (H := raising_pivot) X_ex Y_ex 5000 2000 None None
           1%nat 1%Q (Collaborator 1)); reflexivity.
Defined.

(** Whatever [sigma] is, [None] included, [reduced_covtest] returns when the
    design has a column and [pivot] and the sampler return: the column and the
    sign are those of the selection, and the p-value is the sampler's. *)
Theorem reduced_covtest_returns `{AffineOps} (X : matrix) (Y : vector)
    (ndraw burnin : Z) (sigma : option Q) (cov : option matrix) :
  (1 <= ncols X)%nat ->
  (forall con eta y alt, is_Ok (pivot con eta y alt)) ->
  (forall con y eta nd bi known, is_Ok (gibbs_test con y eta nd bi known)) ->
  exists cone pvalue idx sign,
    reduced_covtest X Y ndraw burnin sigma cov = Ok (cone, pvalue, idx, sign)
    /\ covtest_select X Y = Ok (idx, sign)
    /\ gibbs_test cone Y (vscale_r (col X idx) sign) ndraw burnin
         (bool_decide (sigma <> None)) = Ok pvalue.
Proof.
  intros Hp Hpivot Hgibbs.
  destruct (covtest_select_Ok X Y Hp) as (idx & sign & Hsel).
  unfold reduced_covtest, covtest. rewrite Hsel. cbn [mbind result_bind py_pow2].
  match goal with |- context [pivot ?c ?d ?y ?a] =>
    destruct (Hpivot c d y a) as [pv0 ->];
    destruct (Hgibbs c Y d ndraw burnin (bool_decide (sigma <> None))) as [pv Hpv]
  end.
  cbn [mbind result_bind]. rewrite Hpv. cbn [mbind result_bind]. eauto 10.
Qed.

Lemma reduced_covtest_returns_witness :
  exists cone pvalue idx sign,
    reduced_covtest (H := spec_affine) X_ex Y_ex 5000 2000 None None
    = Ok (cone, pvalue, idx, sign)
    /\ covtest_select X_ex Y_ex = Ok (idx, sign)
    /\ gibbs_test (AffineOps := spec_affine) cone Y_ex (vscale_r (col X_ex idx) sign) 5000 2000
         (bool_decide (@None Q <> None)) = Ok pvalue.
Proof.
  apply (reduced_covtest_returns (H := spec_affine) X_ex Y_ex 5000 2000 None None).
  - cbn. lia.
  - intros. eexists. reflexivity.
  - intros. eexists. reflexivity.
Defined.

(** * Further properties of [forward_step] *)

Section ForwardStepEdges.
Context `{AffineOps} `{SqrtOp} {selector : Type} `{StepwiseSelector selector}.

Lemma standardize_store (h : heap) (l : loc) :
  scale_inplace (center_inplace h l) l = <[l := Arr2 (standardized (load2 h l))]> h.
Proof.
  unfold scale_inplace, center_inplace. rewrite load2_insert.
  apply insert_insert_eq.
Qed.

(** With [nstep <= 0] the loop has no index to go through: once the selector
    is built, [forward_step] returns two empty sequences and leaves the store
    as it was, whatever [sigma] is. *)
Theorem forward_step_no_iteration (lX lY : loc) (sigma : option Q) (nstep : Z)
    (exact : bool) (burnin ndraw : Z) (h : heap) (FS0 : selector) :
  (nstep <= 0)%Z ->
  forward_stepwise (load2 h lX) (load1 h lY) = Ok FS0 ->
  forward_step lX lY sigma nstep exact burnin ndraw h = (h, Ok ([], [])).
Proof.
  intros Hn HFS. unfold forward_step, py_range, shape. rewrite HFS.
  replace (Z.to_nat nstep) with 0%nat by lia. reflexivity.
Qed.

(** An exception of the selector, when it is built or when it is first
    advanced, comes out of [forward_step] as it is, and the store is as it
    was: nothing has been standardized yet. *)
Theorem forward_step_selector_raises (lX lY : loc) (sigma : option Q) (nstep : Z)
    (exact : bool) (burnin ndraw : Z) (h : heap) (e : exn) :
  (forward_stepwise (load2 h lX) (load1 h lY) = Raise e ->
   forward_step lX lY sigma nstep exact burnin ndraw h = (h, Raise e))
  /\ (forall FS0,
        (1 <= nstep)%Z ->
        forward_stepwise (load2 h lX) (load1 h lY) = Ok FS0 ->
        FS_next FS0 (load2 h lX) (load1 h lY) = Raise e ->
        forward_step lX lY sigma nstep exact burnin ndraw h = (h, Raise e)).
Proof.
  split.
  - intros HFS. unfold forward_step, shape. now rewrite HFS.
  - intros FS0 Hn HFS Hnext. unfold forward_step, shape.
    rewrite HFS, (py_range_pos nstep Hn). cbn [fs_loop]. unfold fs_step. cbn [FS].
    now rewrite Hnext.
Qed.

(** With [sigma = None] the type error comes after the standardization of
    the first step: when [forward_step] raises it, the caller's [X] already
    holds the standardized matrix, and nothing else in the store changed. *)
Theorem forward_step_without_sigma_store (lX lY : loc) (nstep : Z) (exact : bool)
    (burnin ndraw : Z) (h : heap) (X : matrix) (Y : vector) (FS0 FS1 : selector) :
  h !! lX = Some (Arr2 X) -> h !! lY = Some (Arr1 Y) ->
  (1 <= nstep)%Z -> (1 <= ncols X)%nat ->
  forward_stepwise X Y = Ok FS0 ->
  FS_next FS0 X Y = Ok FS1 ->
  FS_P FS1 !! 0%nat = Some None ->
  forward_step lX lY None nstep exact burnin ndraw h
  = (<[lX := Arr2 (standardized X)]> h, Raise TypeError).
Proof.
  intros HX HY Hn Hp HFS0 HFS1 HP.
  assert (HlX : load2 h lX = X) by (unfold load2; now rewrite HX).
  assert (HlY : load1 h lY = Y) by (unfold load1; now rewrite HY).
  unfold forward_step, shape. rewrite HlX, HlY, HFS0, (py_range_pos nstep Hn).
  cbn [fs_loop]. unfold fs_step. cbn [FS]. rewrite HlX, HlY, HFS1.
  unfold py_index. rewrite HP. cbn [residualize].
  rewrite standardize_store, HlX.
  destruct (step_tests_None (<[lX := Arr2 (standardized X)]> h) lY lX lY None
              exact burnin ndraw 0 FS1 {| FS := FS0; covtest_P := []; reduced_P := [] |})
    as [_ Htype].
  rewrite Htype; [reflexivity|].
  rewrite load2_insert, ncols_standardized. exact Hp.
Qed.

Lemma fs_step_projection_keeps_X (lX lY : loc) (n : nat) (sigma : option Q)
    (exact : bool) (burnin ndraw : Z) (i : nat) (st : loop_state) (h : heap)
    (X : matrix) (Y : vector) (FS' : selector) (P : projection) :
  h !! lX = Some (Arr2 X) -> h !! lY = Some (Arr1 Y) ->
  FS_next (FS st) X Y = Ok FS' ->
  FS_P FS' !! i = Some (Some P) ->
  (fs_step lX lY n sigma exact burnin ndraw i st h).1 !! lX = Some (Arr2 X).
Proof.
  intros HX HY Hnext HP.
  assert (HlX : load2 h lX = X) by (unfold load2; now rewrite HX).
  assert (HlY : load1 h lY = Y) by (unfold load1; now rewrite HY).
  unfold fs_step. rewrite HlX, HlY, Hnext. unfold py_index. rewrite HP.
  pose proof (residualize_standardize h lX lY n (Some P) X Y HX HY) as Hres.
  destruct (residualize h lX lY n (Some P)) as [[[h1 lRX] lRY] cov].
  cbn zeta in Hres. cbn [fst]. destruct Hres as (_ & HX' & _). exact HX'.
Qed.

(** At a step where the selector has a projection, [RX] and [RY] are new
    arrays, at locations that were not in use: the in-place updates go to the
    new [RX], and the step leaves the caller's [X] as it was. *)
Theorem forward_step_projection_step (lX lY : loc) (n : nat) (sigma : option Q)
    (exact : bool) (burnin ndraw : Z) (i : nat) (st : loop_state) (h : heap)
    (X : matrix) (Y : vector) (FS' : selector) (P : projection) :
  h !! lX = Some (Arr2 X) -> h !! lY = Some (Arr1 Y) ->
  FS_next (FS st) X Y = Ok FS' ->
  FS_P FS' !! i = Some (Some P) ->
  (let '(_, lRX, lRY, _) := residualize h lX lY n (Some P) in
   lRX <> lX /\ lRY <> lY /\ lRX <> lRY /\ h !! lRX = None /\ h !! lRY = None)
  /\ (fs_step lX lY n sigma exact burnin ndraw i st h).1 !! lX = Some (Arr2 X).
Proof.
  intros HX HY Hnext HP. split.
  - cbn [residualize]. unfold alloc. cbn zeta.
    set (a := Arr2 (msub (load2 h lX) (proj_apply_m P (load2 h lX)))).
    set (l1 := fresh (dom h)).
    set (h1 := <[l1 := a]> h).
    set (l2 := fresh (dom h1)).
    assert (Hl1 : h !! l1 = None).
    { apply not_elem_of_dom, is_fresh. }
    assert (Hl2 : h1 !! l2 = None).
    { apply not_elem_of_dom, is_fresh. }
    assert (Hne12 : l1 <> l2).
    { intros Heq. rewrite <- Heq in Hl2. unfold h1 in Hl2.
      rewrite lookup_insert_eq in Hl2. discriminate. }
    assert (Hl2' : h !! l2 = None).
    { unfold h1 in Hl2. rewrite lookup_insert_ne in Hl2 by exact Hne12. exact Hl2. }
    repeat split; try assumption; intros Heq; congruence.
  - exact (fs_step_projection_keeps_X lX lY n sigma exact burnin ndraw i st h X Y FS' P
             HX HY Hnext HP).
Qed.

Lemma fs_step_no_projection_standardizes (lX lY : loc) (n : nat) (sigma : option Q)
    (exact : bool) (burnin ndraw : Z) (i : nat) (st : loop_state) (h : heap)
    (X : matrix) (Y : vector) (FS' : selector) :
  h !! lX = Some (Arr2 X) -> h !! lY = Some (Arr1 Y) ->
  FS_next (FS st) X Y = Ok FS' ->
  FS_P FS' !! i = Some None ->
  (fs_step lX lY n sigma exact burnin ndraw i st h).1 !! lX = Some (Arr2 (standardized X)).
Proof.
  intros HX HY Hnext HP.
  assert (HlX : load2 h lX = X) by (unfold load2; now rewrite HX).
  assert (HlY : load1 h lY = Y) by (unfold load1; now rewrite HY).
  unfold fs_step. rewrite HlX, HlY, Hnext. unfold py_index. rewrite HP.
  pose proof (residualize_standardize h lX lY n None X Y HX HY) as Hres.
  cbn [residualize] in *. cbn zeta in Hres. cbn [fst].
  destruct Hres as (_ & HX' & _). exact HX'.
Qed.

Lemma fs_loop_keeps_X (lX lY : loc) (n : nat) (s : Q) (exact : bool) (burnin ndraw : Z)
    (i k : nat) (st : loop_state) (h : heap) (X : matrix) (Y : vector) :
  affine_returns -> selector_returns ->
  (1 <= i)%nat -> selector_state i (FS st) ->
  h !! lX = Some (Arr2 X) -> (1 <= ncols X)%nat -> h !! lY = Some (Arr1 Y) ->
  exists h' st',
    fs_loop lX lY n (Some s) exact burnin ndraw (seq i k) st h = (h', Ok st')
    /\ h' !! lX = Some (Arr2 X) /\ h' !! lY = Some (Arr1 Y).
Proof.
  intros Haff Hsel. revert i st h.
  induction k as [|k IH]; intros i st h Hi Hstate HX Hp HY; cbn [seq fs_loop];
    [eauto 10|].
  destruct (fs_step_returns lX lY n s exact burnin ndraw i st h X Y Haff Hsel Hstate HX Hp HY)
    as (h1 & st1 & X1 & Hstep & Hstate1 & HX1 & Hp1 & HY1).
  assert (HlX : load2 h lX = X) by (unfold load2; now rewrite HX).
  assert (HlY : load1 h lY = Y) by (unfold load1; now rewrite HY).
  destruct (proj2 Hsel i (FS st) X Y Hstate) as (FS' & Hnext & (_ & _ & HPj)).
  destruct (HPj i ltac:(lia)) as (P & HP & _).
  pose proof (fs_step_projection_keeps_X lX lY n (Some s) exact burnin ndraw i st h X Y FS' P
                HX HY Hnext HP) as Hkeep.
  rewrite Hstep in Hkeep |- *. cbn [fst] in Hkeep.
  exact (IH (S i) st1 h1 ltac:(lia) Hstate1 Hkeep Hp HY1).
Qed.

(** With a selector that has no projection at the first step and one at
    every later step, a call of [forward_step] that goes through at least
    one step standardizes the caller's [X] once: when it returns, [X] holds
    the standardized matrix, and not that matrix standardized again. *)
Theorem forward_step_standardizes_once (lX lY : loc) (s : Q) (nstep : Z) (exact : bool)
    (burnin ndraw : Z) (h : heap) (X : matrix) (Y : vector) :
  h !! lX = Some (Arr2 X) -> h !! lY = Some (Arr1 Y) ->
  (1 <= nstep)%Z -> (1 <= ncols X)%nat ->
  affine_returns -> selector_returns ->
  exists h' covtest_pvalues reduced_pvalues,
    forward_step lX lY (Some s) nstep exact burnin ndraw h
    = (h', Ok (covtest_pvalues, reduced_pvalues))
    /\ h' !! lX = Some (Arr2 (standardized X))
    /\ h' !! lY = Some (Arr1 Y).
Proof.
  intros HX HY Hn Hp Haff Hsel.
  assert (HlX : load2 h lX = X) by (unfold load2; now rewrite HX).
  assert (HlY : load1 h lY = Y) by (unfold load1; now rewrite HY).
  unfold forward_step, shape. rewrite HlX, HlY.
  destruct (proj1 Hsel X Y) as (FS0 & HFS0 & Hstate0). rewrite HFS0.
  rewrite (py_range_pos nstep Hn). cbn [fs_loop].
  set (st0 := {| FS := FS0; covtest_P := []; reduced_P := [] |}).
  destruct (fs_step_returns lX lY (nrows X) s exact burnin ndraw 0 st0 h X Y
              Haff Hsel Hstate0 HX Hp HY)
    as (h1 & st1 & X1 & Hstep & Hstate1 & HX1 & Hp1 & HY1).
  destruct (proj2 Hsel 0%nat FS0 X Y Hstate0) as (FS1 & Hnext & (_ & HP0 & _)).
  pose proof (fs_step_no_projection_standardizes lX lY (nrows X) (Some s) exact burnin ndraw
                0 st0 h X Y FS1 HX HY Hnext HP0) as HXstd.
  rewrite Hstep in HXstd |- *. cbn [fst] in HXstd.
  assert (Hpstd : (1 <= ncols (standardized X))%nat) by now rewrite ncols_standardized.
  destruct (fs_loop_keeps_X lX lY (nrows X) s exact burnin ndraw 1 (Z.to_nat nstep - 1)
              st1 h1 (standardized X) Y Haff Hsel ltac:(lia) Hstate1 HXstd Hpstd HY1)
    as (h' & st' & Hloop & HXend & HYend).
  rewrite Hloop. eauto 10.
Qed.
End ForwardStepEdges.

(** ** [forward_step] on concrete inputs *)

Lemma forward_step_no_iteration_witness :
  forward_step (H := spec_affine) (H0 := sqrt_of_squares) (H1 := spec_selector)
    0 1 None (-3) false 1000 5000 h_fs
  = (h_fs, Ok ([], [])).
Proof.
  apply (forward_step_no_iteration (H := spec_affine) (H0 := sqrt_of_squares)
           (H1 := spec_selector) 0 1 None (-3) false 1000 5000 h_fs
           {| ls_P := [None]; ls_A := [] |}).
  - lia.
  - reflexivity.
Defined.

Lemma forward_step_selector_raises_witness :
  forward_step (H := spec_affine) (H0 := sqrt_of_squares) (H1 := unbuilt_selector)
    0 1 (Some 1%Q) 5 false 1000 5000 h_fs
  = (h_fs, Raise (Collaborator 2))
  /\ forward_step (H := spec_affine) (H0 := sqrt_of_squares) (H1 := stuck_selector)
       0 1 (Some 1%Q) 5 false 1000 5000 h_fs
     = (h_fs, Raise (Collaborator 3)).
Proof.
  split.
  - apply (proj1 (forward_step_selector_raises (H := spec_affine) (H0 := sqrt_of_squares)
                    (H1 := unbuilt_selector) 0 1 (Some 1%Q) 5 false 1000 5000 h_fs
                    (Collaborator 2))).
    reflexivity.
  - apply (proj2 (forward_step_selector_raises (H := spec_affine) (H0 := sqrt_of_squares)
                    (H1 := stuck_selector) 0 1 (Some 1%Q) 5 false 1000 5000 h_fs
                    (Collaborator 3)) {| ls_P := [None]; ls_A := [] |}).
    + lia.
    + reflexivity.
    + reflexivity.
Defined.

Lemma forward_step_without_sigma_store_witness :
  forward_step (H := spec_affine) (H0 := sqrt_of_squares) (H1 := spec_selector)
    0 1 None 5 false 1000 5000 h_fs
  = (<[0%nat := Arr2 (standardized (H0 := sqrt_of_squares) X_fs)]> h_fs, Raise TypeError).
Proof.
  apply (forward_step_without_sigma_store (H := spec_affine) (H0 := sqrt_of_squares)
           (H1 := spec_selector) 0 1 5 false 1000 5000 h_fs X_fs Y_fs
           {| ls_P := [None]; ls_A := [] |}
           {| ls_P := [None; Some (zero_projection 2)]; ls_A := [np_zeros 2] |}).
  - reflexivity.
  - reflexivity.
  - lia.
  - cbn. lia.
  - reflexivity.
  - reflexivity.
  - reflexivity.
Defined.

Lemma forward_step_standardizes_once_witness :
  exists h' covtest_pvalues reduced_pvalues,
    forward_step (H := spec_affine) (H0 := sqrt_of_squares) (H1 := spec_selector)
      0 1 (Some 1%Q) 3 false 1000 5000 h_fs
    = (h', Ok (covtest_pvalues, reduced_pvalues))
    /\ h' !! 0%nat = Some (Arr2 (standardized (H0 := sqrt_of_squares) X_fs))
    /\ h' !! 1%nat = Some (Arr1 Y_fs).
Proof.
  apply (forward_step_standardizes_once (H := spec_affine) (H0 := sqrt_of_squares)
           (H1 := spec_selector) 0 1 1%Q 3 false 1000 5000 h_fs X_fs Y_fs).
  - reflexivity.
  - reflexivity.
  - lia.
  - cbn. lia.
  - exact spec_affine_returns.
  - exact spec_selector_returns.
Defined.

Lemma forward_step_projection_step_witness :
  (let '(_, lRX, lRY, _) :=
     residualize h_fs 0 1 2 (Some (zero_projection 2)) in
   lRX <> 0%nat /\ lRY <> 1%nat /\ lRX <> lRY /\ h_fs !! lRX = None /\ h_fs !! lRY = None)
  /\ (fs_step (H := spec_affine) (H0 := sqrt_of_squares) (H1 := spec_selector)
        0 1 2 (Some 1%Q) false 1000 5000 1
        {| FS := {| ls_P := [None; Some (zero_projection 2)]; ls_A := [np_zeros 2] |};
           covtest_P := [1%R]; reduced_P := [1%R] |} h_fs).1 !! 0%nat
     = Some (Arr2 X_fs).
Proof.
  apply (forward_step_projection_step (H := spec_affine) (H0 := sqrt_of_squares)
           (H1 := spec_selector) 0 1 2 (Some 1%Q) false 1000 5000 1
           {| FS := {| ls_P := [None; Some (zero_projection 2)]; ls_A := [np_zeros 2] |};
              covtest_P := [1%R]; reduced_P := [1%R] |} h_fs X_fs Y_fs
           {| ls_P := [None; Some (zero_projection 2); Some (zero_projection 2)];
              ls_A := [np_zeros 2; np_zeros 2] |}
           (zero_projection 2)); reflexivity.
Defined.

(** * [set_sampling_params_iftrue] *)

Section DecoratorProperties.
Context {V T : Type}.

(** With [test_params] true, the decorated function calls [func] with the
    positional arguments it was given and with keyword arguments in which
    [nsim], [burnin] and [ndraw] are those of the decorator and every other
    key is as the caller gave it. *)
Theorem set_sampling_params_overrides (nsim burnin ndraw : V) (args : list V)
    (kwargs : gmap string V) :
  exists kwargs' : gmap string V,
    (forall func : list V -> gmap string V -> T,
       set_sampling_params_iftrue true nsim burnin ndraw func args kwargs
       = func args kwargs')
    /\ kwargs' !! "nsim" = Some nsim
    /\ kwargs' !! "burnin" = Some burnin
    /\ kwargs' !! "ndraw" = Some ndraw
    /\ forall k, k <> "nsim" -> k <> "burnin" -> k <> "ndraw" ->
         kwargs' !! k = kwargs !! k.
Proof.
  eexists. split; [intros func; reflexivity|].
  split; [|split; [|split]].
  - now rewrite !lookup_insert_ne, lookup_insert_eq by discriminate.
  - now rewrite lookup_insert_ne, lookup_insert_eq by discriminate.
  - apply lookup_insert_eq.
  - intros k H1 H2 H3. now rewrite !lookup_insert_ne by congruence.
Qed.

(** So the caller's own [nsim], [burnin] or [ndraw] is dropped: passing one
    changes nothing in the call that [func] receives. *)
Theorem set_sampling_params_ignores_caller (nsim burnin ndraw v : V)
    (func : list V -> gmap string V -> T) (args : list V) (kwargs : gmap string V)
    (k : string) :
  k = "nsim" \/ k = "burnin" \/ k = "ndraw" ->
  set_sampling_params_iftrue true nsim burnin ndraw func args (<[k := v]> kwargs)
  = set_sampling_params_iftrue true nsim burnin ndraw func args kwargs.
Proof.
  intros Hk. cbn. f_equal. apply map_eq. intros j.
  destruct (decide (j = "ndraw")) as [->|Hn]; [now rewrite !lookup_insert_eq|].
  rewrite !(lookup_insert_ne _ "ndraw") by congruence.
  destruct (decide (j = "burnin")) as [->|Hb]; [now rewrite !lookup_insert_eq|].
  rewrite !(lookup_insert_ne _ "burnin") by congruence.
  destruct (decide (j = "nsim")) as [->|Hs]; [now rewrite !lookup_insert_eq|].
  rewrite !(lookup_insert_ne _ "nsim") by congruence.
  apply lookup_insert_ne. destruct Hk as [->|[->| ->]]; congruence.
Qed.

(** Of two stacked decorators, both with [test_params] true, the one applied
    to [func] first decides the three parameters; with [test_params] false a
    decorator hands [func] back. *)
Theorem set_sampling_params_stacked (n1 b1 d1 n2 b2 d2 : V)
    (func : list V -> gmap string V -> T) (args : list V) (kwargs : gmap string V) :
  set_sampling_params_iftrue true n1 b1 d1
    (set_sampling_params_iftrue true n2 b2 d2 func) args kwargs
  = set_sampling_params_iftrue true n2 b2 d2 func args kwargs
  /\ set_sampling_params_iftrue false n1 b1 d1
       (set_sampling_params_iftrue true n2 b2 d2 func) args kwargs
     = set_sampling_params_iftrue true n2 b2 d2 func args kwargs.
Proof.
  split; [|reflexivity].
  cbn. f_equal. apply map_eq. intros j.
  destruct (decide (j = "ndraw")) as [->|Hn];
    [|destruct (decide (j = "burnin")) as [->|Hb];
      [|destruct (decide (j = "nsim")) as [->|Hs]]];
    repeat first [ rewrite lookup_insert_eq
                 | rewrite lookup_insert_ne by (congruence || discriminate) ];
    reflexivity.
Qed.
End DecoratorProperties.

Lemma set_sampling_params_ignores_caller_witness :
  set_sampling_params_iftrue true 10%Z 10%Z 10%Z
    (fun (_ : list Z) (kw : gmap string Z) => kw !! "ndraw") [] (<["ndraw" := 5000%Z]> ∅)
  = set_sampling_params_iftrue true 10%Z 10%Z 10%Z
      (fun (_ : list Z) (kw : gmap string Z) => kw !! "ndraw") [] ∅.
Proof.
  apply (set_sampling_params_ignores_caller 10%Z 10%Z 10%Z 5000%Z
           (fun (_ : list Z) (kw : gmap string Z) => kw !! "ndraw") [] ∅ "ndraw").
  right; right; reflexivity.
Defined.
